(** * HierarchicalAgentTeams: the stream consumer of [App.vue]

    A shallow embedding of the front end's event handling
    ([handleSubmit], [fetchStreamData], [updateAgentFromMessage],
    [updateAgentStatus] in [frontend/src/App.vue], and the message filter
    and templates of [components/ChatDisplay.vue]), and the properties of
    the transcript aggregation and of the agent activity tracking that
    follow from it.

    Conventions of the embedding:
    - a JavaScript string is the [string] of its UTF-8 bytes;
    - the objects stored in [messages] live in a store ([heap]) and the
      array holds references, so that replacing an entry and mutating it
      in place are different things;
    - a [TypeError] raised inside the [try] block of [fetchStreamData] is
      the result [None] of the step that raises it; the [catch] only logs;
    - [JSON.parse], a built-in of the runtime, is a parameter of the line
      decoder; the fields of an event are strings where they are present,
      as the wire format has them;
    - [onParsed] is the handling of one parsed event that no other
      handler overlaps.  The code suspends at the [await] of [nextTick]
      between the transcript update and the tracker, where the handler
      of another reader can run: [reachable] has the two halves as
      steps of their own, in any interleaving, and the invariants of
      the transcript are stated on it. *)

From stdpp Require Import base list strings.
From Stdlib Require Import ZArith.
From Stdlib Require Import Ascii.

(** ** JavaScript strings *)

Module JsString.

(** The line feed, ['\n']. *)
Definition nl : string := String "010"%char "".

(** [s.startsWith(p)]. *)
Definition startsWith (s p : string) : bool := String.prefix p s.

(** [s.endsWith(p)]. *)
Definition endsWith (s p : string) : bool :=
  String.prefix (String.rev p) (String.rev s).

(** [s.slice(n)] for [0 <= n]. *)
Fixpoint slice (n : nat) (s : string) : string :=
  match n, s with
  | O, _ => s
  | S _, "" => ""
  | S k, String _ s' => slice k s'
  end.

Definition utf8 (bytes : list N) : string :=
  String.string_of_list_ascii (Ascii.ascii_of_N <$> bytes).

(** The white space and line terminators that [trim] removes, as UTF-8:
    U+0009..U+000D, U+0020, U+00A0, U+1680, U+2000..U+200A, U+2028,
    U+2029, U+202F, U+205F, U+3000, U+FEFF. *)
Definition whitespace : list string :=
  (utf8 <$> [[9]; [10]; [11]; [12]; [13]; [32]; [194; 160]; [225; 154; 128]]%N)
  ++ ((λ b, utf8 [226; 128; b]%N) <$>
        [128; 129; 130; 131; 132; 133; 134; 135; 136; 137; 138; 168; 169; 175]%N)
  ++ (utf8 <$> [[226; 129; 159]; [227; 128; 128]; [239; 187; 191]]%N).

(** Removes one leading occurrence of one of [pats], if there is one. *)
Fixpoint strip_one (pats : list string) (s : string) : option string :=
  match pats with
  | [] => None
  | p :: pats' =>
      if String.prefix p s then Some (slice (String.length p) s)
      else strip_one pats' s
  end.

Fixpoint strip_all (fuel : nat) (pats : list string) (s : string) : string :=
  match fuel with
  | O => s
  | S k =>
      match strip_one pats s with
      | Some s' => strip_all k pats s'
      | None => s
      end
  end.

Definition trimStart (s : string) : string :=
  strip_all (String.length s) whitespace s.

Definition trimEnd (s : string) : string :=
  String.rev (strip_all (String.length s) (String.rev <$> whitespace) (String.rev s)).

(** [s.trim()]. *)
Definition trim (s : string) : string := trimEnd (trimStart s).

(** [s.split('\n')]: never empty, [''.split('\n')] is [['']]. *)
Fixpoint split_nl (s : string) : list string :=
  match s with
  | "" => [""]
  | String a s' =>
      if decide (a = "010"%char) then "" :: split_nl s'
      else match split_nl s' with
           | h :: t => String a h :: t
           | [] => [String a ""]
           end
  end.

(** String concatenation with an operand that may be [undefined]. *)
Definition to_string (v : option string) : string :=
  match v with Some s => s | None => "undefined" end.

(** Truthiness of a string-or-undefined value, for [v || d]. *)
Definition or_default (v : option string) (d : string) : string :=
  match v with
  | Some s => if decide (s = "") then d else s
  | None => d
  end.

End JsString.
Import JsString.

(** ** Data model *)

(** A reference to an object of the store. *)
Abbreviation loc := nat (only parsing).

Record Subtask := mkSubtask { title : string; requirement : string }.

(** An event object as [JSON.parse] returns it, which is also the shape of
    a transcript entry: the fields that [App.vue] and [ChatDisplay.vue]
    read.  [None] is an absent field ([undefined]). *)
Record Message := mkMessage {
  type : option string;
  node : option string;
  agent : option string;
  message : option string;
  delta : option bool;
  timestamp : option string;
  subtasks : option (list Subtask);
  current_task : option string
}.

(** [{ ...m, message: text }]. *)
Definition spread_message (m : Message) (text : string) : Message :=
  {| type := type m; node := node m; agent := agent m;
     message := Some text;
     delta := delta m; timestamp := timestamp m;
     subtasks := subtasks m; current_task := current_task m |}.

(** An element of [agentTeam]. *)
Record Agent := mkAgent {
  name : string;
  avatar : string;
  status : string;
  active : bool;
  role : string;
  layer : nat
}.

(** The reactive state of the component, and the store of the objects
    that [messages] refers to. *)
Record App := mkApp {
  heap : list Message;
  messages : list loc;
  loading : bool;
  error : string;
  currentActiveAgent : string;
  currentMainMessageIndex : Z;
  agentTeam : list Agent
}.

Definition set_heap (h : list Message) (st : App) : App :=
  mkApp h (messages st) (loading st) (error st) (currentActiveAgent st)
        (currentMainMessageIndex st) (agentTeam st).
Definition set_messages (ms : list loc) (st : App) : App :=
  mkApp (heap st) ms (loading st) (error st) (currentActiveAgent st)
        (currentMainMessageIndex st) (agentTeam st).
Definition set_loading (b : bool) (st : App) : App :=
  mkApp (heap st) (messages st) b (error st) (currentActiveAgent st)
        (currentMainMessageIndex st) (agentTeam st).
Definition set_error (e : string) (st : App) : App :=
  mkApp (heap st) (messages st) (loading st) e (currentActiveAgent st)
        (currentMainMessageIndex st) (agentTeam st).
Definition set_currentActiveAgent (a : string) (st : App) : App :=
  mkApp (heap st) (messages st) (loading st) (error st) a
        (currentMainMessageIndex st) (agentTeam st).
Definition set_currentMainMessageIndex (i : Z) (st : App) : App :=
  mkApp (heap st) (messages st) (loading st) (error st) (currentActiveAgent st)
        i (agentTeam st).
Definition set_agentTeam (t : list Agent) (st : App) : App :=
  mkApp (heap st) (messages st) (loading st) (error st) (currentActiveAgent st)
        (currentMainMessageIndex st) t.

(** The state declared at lines 340-361 of the component. *)
Definition initial_agentTeam : list Agent :=
  [ mkAgent "主管" "👨‍💼" "idle" false "supervisor" 1;
    mkAgent "研究团队" "👥" "idle" false "research_team" 2;
    mkAgent "文档写作团队" "📝" "idle" false "document_writing_team" 2;
    mkAgent "搜索器" "🔍" "idle" false "searcher" 3;
    mkAgent "网页爬虫" "🕷️" "idle" false "web_crawler" 3;
    mkAgent "写作者" "✍️" "idle" false "writer" 3;
    mkAgent "记事本" "📓" "idle" false "notebook" 3;
    mkAgent "图表生成器" "📊" "idle" false "chart_generator" 3 ].

Definition initial : App :=
  mkApp [] [] false "" "" (-1) initial_agentTeam.

(** ** Arrays and the store *)

(** [arr[i]] for a number [i]: [undefined] out of range. *)
Definition at_index {A} (arr : list A) (i : Z) : option A :=
  if (i <? 0)%Z then None else arr !! Z.to_nat i.

(** [arr.splice(i, 1, x)] for [0 <= i]: past the end it appends. *)
Definition splice1 {A} (i : nat) (x : A) (arr : list A) : list A :=
  take i arr ++ x :: drop (S i) arr.

(** A new object. *)
Definition alloc (m : Message) (st : App) : loc * App :=
  (length (heap st), set_heap (heap st ++ [m]) st).

(** The entry that [messages[i]] refers to. *)
Definition entry (st : App) (i : Z) : option Message :=
  l ← at_index (messages st) i; heap st !! l.

(** The entries of the transcript, in order. *)
Definition entries (st : App) : list Message :=
  omap (λ l, heap st !! l) (messages st).

(** ** The agent activity tracker *)

Definition is_type (m : Message) (k : string) : bool :=
  bool_decide (type m = Some k).

(** [agentTeam.find(a => a.name === n)]. *)
Definition find_agent (n : string) (team : list Agent) : option Agent :=
  List.find (λ a, bool_decide (name a = n)) team.

(** Assigns [status] and [active] of the first agent named [n], the
    object that [find] returned. *)
Fixpoint mutate_agent (n : string) (s : string) (act : bool) (team : list Agent)
  : list Agent :=
  match team with
  | [] => []
  | a :: team' =>
      if bool_decide (name a = n)
      then mkAgent (name a) (avatar a) s act (role a) (layer a) :: team'
      else a :: mutate_agent n s act team'
  end.

(** [updateAgentStatus(status)]. *)
Definition updateAgentStatus (s : string) (st : App) : App :=
  set_agentTeam
    ((λ a, mkAgent (name a) (avatar a) s (bool_decide (s = "active"))
                   (role a) (layer a)) <$> agentTeam st) st.

(** [updateAgentFromMessage(message)]. *)
Definition updateAgentFromMessage (m : Message) (st : App) : App :=
  let agentName := or_default (agent m) "系统" in
  match find_agent agentName (agentTeam st) with
  | Some _ =>
      if is_type m "status" then
        set_currentActiveAgent agentName
          (set_agentTeam (mutate_agent agentName "active" true (agentTeam st)) st)
      else if is_type m "result" || is_type m "final" then
        let st1 :=
          set_agentTeam (mutate_agent agentName "completed" false (agentTeam st)) st in
        if is_type m "final" then set_currentActiveAgent "" st1 else st1
      else if is_type m "error" then
        set_currentActiveAgent ""
          (set_agentTeam (mutate_agent agentName "idle" false (agentTeam st)) st)
      else st
  | None =>
      if is_type m "end" then
        set_currentActiveAgent ""
          (set_agentTeam
             ((λ a, mkAgent (name a) (avatar a) "idle" false (role a) (layer a))
                <$> agentTeam st) st)
      else st
  end.

(** ** The transcript aggregator *)

(** [messages.value.push(parsedData)]. *)
Definition push (parsedData : Message) (st : App) : App :=
  let '(l, st1) := alloc parsedData st in
  set_messages (messages st1 ++ [l]) st1.

(** [push], then [currentMainMessageIndex.value = messages.value.length - 1]. *)
Definition open_main (parsedData : Message) (st : App) : App :=
  let st1 := push parsedData st in
  set_currentMainMessageIndex (Z.of_nat (length (messages st1)) - 1) st1.

(** The merge that the thinking, result/final, error and status branches
    each spell out: they differ in the separator and in the appended text
    only.  [None] is the [TypeError] of [currentMessage.message.endsWith]
    on an entry without [message]; nothing has been assigned by then. *)
Definition merge_main (sep : string) (text : string) (st : App) : option App :=
  let index := currentMainMessageIndex st in
  match at_index (messages st) index with
  | None => Some st
  | Some l =>
      match heap st !! l with
      | None => Some st
      | Some currentMessage =>
          match message currentMessage with
          | None => None
          | Some m =>
              let separator := if endsWith m nl then "" else sep in
              let '(l', st1) :=
                alloc (spread_message currentMessage (m +:+ separator +:+ text)) st in
              Some (set_messages (splice1 (Z.to_nat index) l' (messages st1)) st1)
          end
      end
  end.

(** The body of [if (parsedData.node === 'supervisor')]. *)
Definition aggregate (parsedData : Message) (st : App) : option App :=
  let closed := bool_decide (currentMainMessageIndex st = (-1)%Z) in
  if is_type parsedData "thinking" then
    if closed then Some (open_main parsedData st)
    else merge_main nl (to_string (message parsedData)) st
  else if is_type parsedData "result" || is_type parsedData "final" then
    if negb closed
    then merge_main (nl +:+ nl) (to_string (message parsedData)) st
    else Some (open_main parsedData st)
  else if is_type parsedData "error" then
    if negb closed
    then merge_main (nl +:+ nl) ("❌ " +:+ to_string (message parsedData)) st
    else Some (open_main parsedData st)
  else if is_type parsedData "status" then
    if negb closed
    then merge_main nl (to_string (message parsedData)) st
    else Some (open_main parsedData st)
  else if is_type parsedData "connection" || is_type parsedData "end" then
    Some (push parsedData st)
  else Some st.

(** The statements that follow the node filter in the [try] block:
    [updateAgentFromMessage(parsedData)], then the reset on an end or
    final event.  ([nextTick] and the scrolling touch the page only.) *)
Definition afterAggregate (parsedData : Message) (st1 : App) : App :=
  let st2 := updateAgentFromMessage parsedData st1 in
  if is_type parsedData "end" || is_type parsedData "final" then
    set_currentMainMessageIndex (-1)
      (updateAgentStatus "idle" (set_loading false st2))
  else st2.

(** What [fetchStreamData] does with a parsed event: the part of the [try]
    block after [JSON.parse].  A raising [aggregate] skips the rest. *)
Definition onParsed (parsedData : Message) (st : App) : App :=
  let transcript :=
    if bool_decide (node parsedData = Some "supervisor")
    then aggregate parsedData st else Some st in
  match transcript with
  | None => st
  | Some st1 => afterAggregate parsedData st1
  end.

(** A run of decoded events, in arrival order. *)
Definition onParsedAll (evs : list Message) (st : App) : App :=
  foldl (λ s ev, onParsed ev s) st evs.

(** ** The line decoder and the read loop *)

Section Decoder.

(** [JSON.parse] on a payload, read at the fields of [Message]; [None]
    is its [SyntaxError]. *)
Variable JSON_parse : string → option Message.

(** The body of [for (const line of lines)]. *)
Definition processLine (line : string) (st : App) : App :=
  if negb (bool_decide (trim line = "")) && startsWith line "data: " then
    let jsonData := trim (slice 6 line) in
    if negb (endsWith jsonData "}") then st
    else match JSON_parse jsonData with
         | None => st
         | Some parsedData => onParsed parsedData st
         end
  else st.

(** [line] is an event line whose payload passes the completeness check
    and parses to [ev]. *)
Definition decodes_to (line : string) (ev : Message) : Prop :=
  trim line ≠ "" ∧ startsWith line "data: " = true
  ∧ endsWith (trim (slice 6 line)) "}" = true
  ∧ JSON_parse (trim (slice 6 line)) = Some ev.

Definition processLines (lines : list string) (st : App) : App :=
  foldl (λ s line, processLine line s) st lines.

(** One turn of [while (true)] with a chunk: the carry-over [buffer] of
    this reader and the state, before and after. *)
Definition readChunk (chunk : string) (rd : string * App) : string * App :=
  let buffer := rd.1 +:+ chunk in
  let lines := split_nl buffer in
  let lastLine := or_default (last lines) "" in
  (lastLine, processLines (removelast lines) rd.2).

Definition readChunks (chunks : list string) (rd : string * App) : string * App :=
  foldl (λ r chunk, readChunk chunk r) rd chunks.

End Decoder.

(** ** The session controller *)

(** The [userMessage] of [handleSubmit]; [now] is
    [new Date().toISOString()]. *)
Definition userMessage (task now : string) : Message :=
  mkMessage (Some "user") None (Some "用户") (Some task) None (Some now) None None.

(** [handleSubmit(task)], up to and including the synchronous start of
    [fetchStreamData]. *)
Definition handleSubmit (task now : string) (st : App) : App :=
  let st1 := set_messages [] (set_error "" st) in
  let st2 := push (userMessage task now) st1 in
  let st3 := set_currentMainMessageIndex (-1) st2 in
  let st4 := updateAgentStatus "active" (set_loading true st3) in
  set_loading true st4.

(** The outer [catch] of [fetchStreamData]; [msg] is [err.message]. *)
Definition onFault (msg : string) (st : App) : App :=
  set_currentMainMessageIndex (-1)
    (updateAgentStatus "idle"
       (set_loading false (set_error ("获取数据失败: " +:+ msg) st))).

(** The component and the calls of [fetchStreamData] made so far: each
    has a reader of its own and all of them share the state.  The calls
    are numbered from 0 in the order of the submissions, so the run of the
    last submission is number [started - 1]. *)
Record System := mkSystem { app : App; started : nat }.

(** What happens to the component, where the handling of a parsed event
    is not overlapped by another handler: [Deliver] is the whole of it. *)
Inductive Action :=
  | Submit (task now : string)
  | Deliver (run : nat) (parsedData : Message)
  | Fault (run : nat) (msg : string).

Definition step (a : Action) (sys : System) : System :=
  match a with
  | Submit task now => mkSystem (handleSubmit task now (app sys)) (S (started sys))
  | Deliver r parsedData =>
      if bool_decide (r < started sys)
      then mkSystem (onParsed parsedData (app sys)) (started sys) else sys
  | Fault r msg =>
      if bool_decide (r < started sys)
      then mkSystem (onFault msg (app sys)) (started sys) else sys
  end.

Definition run (acts : list Action) (sys : System) : System :=
  foldl (λ s a, step a s) sys acts.

Definition boot : System := mkSystem initial 0.

(** The states of the component at the points where a handler can start
    or resume, with any number of readers.  The part of the [try] block
    before [await nextTick()] and the part after it are steps of their
    own, so that between the two halves of one event the handlers of
    other readers, a submission or a fault may act.  The relation does
    not record which handler is suspended on which event: it lets any
    event resume at any time, and so has every state that the code
    reaches and possibly more.  A raising first half changes nothing and
    ends the handling, a line that is not an event line is no step. *)
Inductive reachable : App → Prop :=
  | reach_initial : reachable initial
  | reach_submit (task now : string) (st : App) :
      reachable st → reachable (handleSubmit task now st)
  | reach_aggregate (parsedData : Message) (st st1 : App) :
      reachable st →
      node parsedData = Some "supervisor" →
      aggregate parsedData st = Some st1 →
      reachable st1
  | reach_resume (parsedData : Message) (st : App) :
      reachable st → reachable (afterAggregate parsedData st)
  | reach_fault (msg : string) (st : App) :
      reachable st → reachable (onFault msg st).

(** ** The rendering boundary ([ChatDisplay.vue]) *)

(** [props.messages.filter(message => message.type !== 'user')]. *)
Definition filteredMessages (ms : list Message) : list Message :=
  filter (λ m, type m ≠ Some "user") ms.

(** The block of the template that the [v-if] chain selects for an
    entry, by its class. *)
Definition template (m : Message) : option string :=
  if is_type m "connection" then Some "message-connection"
  else if is_type m "status" then Some "message-status"
  else if is_type m "decomposition" then Some "message-decomposition"
  else if is_type m "assignment" then Some "message-assignment"
  else if is_type m "execution" then Some "message-execution"
  else if is_type m "thinking" then Some "message-thinking"
  else if is_type m "result" then Some "message-result"
  else if is_type m "aggregation" then Some "message-aggregation"
  else if is_type m "final" then Some "message-final"
  else if is_type m "user" then Some "message-user"
  else if is_type m "error" then Some "message-error"
  else if is_type m "end" then Some "message-end"
  else None.

(** ** The vocabulary of the properties *)

(** The main slot is open on the entry [cur]. *)
Definition main_slot (st : App) (cur : Message) : Prop :=
  entry st (currentMainMessageIndex st) = Some cur.

(** The kinds that are merged into the main slot. *)
Definition mergeable (ev : Message) : Prop :=
  type ev = Some "thinking" ∨ type ev = Some "status" ∨ type ev = Some "result"
  ∨ type ev = Some "final" ∨ type ev = Some "error".

(** The separator that the branch of a mergeable kind inserts after a
    text that does not end in a line feed. *)
Definition merge_separator (ev : Message) : string :=
  if is_type ev "thinking" || is_type ev "status" then nl else nl +:+ nl.

(** The text that the branch of a mergeable kind appends. *)
Definition merge_text (ev : Message) : string :=
  if is_type ev "error" then "❌ " +:+ to_string (message ev)
  else to_string (message ev).

(** Two entries that differ in [message] at most. *)
Definition same_but_message (e e' : Message) : Prop :=
  type e' = type e ∧ node e' = node e ∧ agent e' = agent e
  ∧ delta e' = delta e ∧ timestamp e' = timestamp e
  ∧ subtasks e' = subtasks e ∧ current_task e' = current_task e.

(** The state after a merge: a new object at the end of the store, its
    reference in place of the old one. *)
Definition merged (st : App) (i : nat) (new : Message) : App :=
  set_messages (<[i:=length (heap st)]> (messages st))
               (set_heap (heap st ++ [new]) st).

(** How one event may change the transcript: not at all, by one appended
    entry, or by a new object put in place of the main slot's entry. *)
Inductive transcript_step (st st' : App) : Prop :=
  | ts_same :
      heap st' = heap st → messages st' = messages st → transcript_step st st'
  | ts_push (m : Message) :
      heap st' = heap st ++ [m] →
      messages st' = messages st ++ [length (heap st)] →
      transcript_step st st'
  | ts_merge (i : nat) (l : loc) (cur : Message) (text : string) :
      currentMainMessageIndex st = Z.of_nat i →
      messages st !! i = Some l →
      heap st !! l = Some cur →
      heap st' = heap st ++ [spread_message cur text] →
      messages st' = <[i := length (heap st)]> (messages st) →
      transcript_step st st'.

(** The fragments of a run of thinking events as the spec joins them: a
    line feed goes between the text so far and the next fragment unless
    the text so far already ends in one. *)
Fixpoint join_onto (acc : string) (fragments : list string) : string :=
  match fragments with
  | [] => acc
  | f :: rest =>
      join_onto (acc +:+ (if endsWith acc nl then "" else nl) +:+ f) rest
  end.

Definition join_single_newlines (fragments : list string) : string :=
  match fragments with
  | [] => ""
  | f :: rest => join_onto f rest
  end.

(** A supervisor-node thinking event, not a delta, with text [f]. *)
Definition thinking_fragment (ev : Message) (f : string) : Prop :=
  type ev = Some "thinking" ∧ node ev = Some "supervisor"
  ∧ message ev = Some f ∧ delta ev ≠ Some true.

(** The status of the agent that [find] returns for the name [n]. *)
Definition agent_status (n : string) (st : App) : option string :=
  status <$> find_agent n (agentTeam st).

(** An event with the four fields that every event of the wire format
    carries, for the examples. *)
Definition event (ty nd ag text : string) : Message :=
  mkMessage (Some ty) (Some nd) (Some ag) (Some text) None None None None.

(** The state at the start of a run, for the examples. *)
Definition started_run : App :=
  handleSubmit "task" "2026-01-01T00:00:00.000Z" initial.

(** A decoder for the payloads of the examples: flat objects whose
    values are strings without escapes.  It stands in for [JSON.parse]
    where an example needs a concrete one. *)
Module Sample.

(** A payload written with an apostrophe for each double quote. *)
Fixpoint json (s : string) : string :=
  match s with
  | "" => ""
  | String a s' => String (if decide (a = "'"%char) then "034"%char else a) (json s')
  end.

Fixpoint until_quote (s : string) : option (string * string) :=
  match s with
  | "" => None
  | String a s' =>
      if decide (a = "034"%char) then Some ("", s')
      else p ← until_quote s'; Some (String a p.1, p.2)
  end.

(** The pairs of key and value, from the text after the first quote. *)
Fixpoint pairs (fuel : nat) (s : string) : option (list (string * string)) :=
  match fuel with
  | O => None
  | S n =>
      kv ← until_quote s;
      match kv.2 with
      | String ":" (String "034" s1) =>
          vr ← until_quote s1;
          match vr.2 with
          | "}" => Some [(kv.1, vr.1)]
          | String "," (String "034" s2) =>
              rest ← pairs n s2; Some ((kv.1, vr.1) :: rest)
          | _ => None
          end
      | _ => None
      end
  end.

Definition field (k : string) (kvs : list (string * string)) : option string :=
  snd <$> List.find (λ kv, bool_decide (kv.1 = k)) kvs.

Definition parse (s : string) : option Message :=
  match s with
  | String "{" (String "034" s1) =>
      kvs ← pairs (String.length s) s1;
      Some (mkMessage (field "type" kvs) (field "node" kvs) (field "agent" kvs)
                      (field "message" kvs) None (field "timestamp" kvs) None None)
  | _ => None
  end.

End Sample.

(** ** The read loop, seen from outside *)

(** The lines that a turn of the loop handles, for the buffer it has
    after appending the chunk: [lines] after [lines.pop()]. *)
Definition complete_lines (buffer : string) : list string :=
  removelast (split_nl buffer).

(** What the turn leaves in [buffer]: [lines.pop() || '']. *)
Definition carry_over (buffer : string) : string :=
  or_default (last (split_nl buffer)) "".

(** The event that a line yields, if any: the tests of the loop body and
    [JSON.parse], without the handling. *)
Definition decodeLine (JSON_parse : string → option Message) (line : string)
  : option Message :=
  if negb (bool_decide (trim line = "")) && startsWith line "data: " then
    let jsonData := trim (slice 6 line) in
    if negb (endsWith jsonData "}") then None else JSON_parse jsonData
  else None.

(** A text without a line feed. *)
Definition no_line_feed (s : string) : Prop := split_nl s = [s].

(** ** Well-formed states *)

(** The kinds of the objects that the code puts into the transcript. *)
Definition stored_kind (m : Message) : Prop :=
  type m = Some "user" ∨ mergeable m
  ∨ type m = Some "connection" ∨ type m = Some "end".

(** Every reference of [messages] is to an object of the store, the
    objects are of the stored kinds, and the main-slot index is [-1] or
    the index of an entry of a mergeable kind. *)
Definition well_formed (st : App) : Prop :=
  Forall (λ l, l < length (heap st)) (messages st)
  ∧ Forall stored_kind (heap st)
  ∧ (currentMainMessageIndex st = (-1)%Z
     ∨ ∃ cur : Message, main_slot st cur ∧ mergeable cur).

(** What identifies an agent in the team. *)
Definition agent_identity (a : Agent) : string * string * string * nat :=
  (name a, avatar a, role a, layer a).

(** The flag [active] says what [status] says, and [status] is one of the
    three values of the style sheet. *)
Definition flags_consistent (a : Agent) : Prop :=
  active a = bool_decide (status a = "active")
  ∧ (status a = "idle" ∨ status a = "active" ∨ status a = "completed").

(** The same agent later on: who it is has not changed, and consistent
    flags have stayed consistent. *)
Definition agent_evolves (a a' : Agent) : Prop :=
  agent_identity a' = agent_identity a
  ∧ (flags_consistent a → flags_consistent a').

(** ** The input area ([InputArea.vue]) *)

Module InputArea.

(** The text of the input as its UTF-16 code units, which is what
    [length] and [slice] count. *)
Abbreviation text := (list N) (only parsing).

(** The code units that [trim] removes: white space and line
    terminators, all of them single code units. *)
Definition is_space (u : N) : bool :=
  bool_decide
    (u ∈ [9; 10; 11; 12; 13; 32; 160; 5760; 8192; 8193; 8194; 8195; 8196; 8197;
          8198; 8199; 8200; 8201; 8202; 8232; 8233; 8239; 8287; 12288; 65279]%N).

Fixpoint trimStart (s : text) : text :=
  match s with
  | [] => []
  | u :: s' => if is_space u then trimStart s' else s
  end.

Definition trimEnd (s : text) : text := reverse (trimStart (reverse s)).

(** [s.trim()]. *)
Definition trim (s : text) : text := trimEnd (trimStart s).

(** What a handler does besides assigning [inputText]. *)
Inductive Effect :=
  | Alert (msg : string)
  | EmitSubmit (task : list N)
  | EmitClear
  | PreventDefault.

(** The watcher of [inputText]: the value that [inputText] holds once the
    watcher has run on [newValue] (its own assignment makes it run once
    more, on a value that it leaves alone). *)
Definition watchInputText (newValue : text) : text :=
  if bool_decide (5000 < length newValue) then take 5000 newValue else newValue.

(** [handleSubmit()]; it leaves [inputText] as it is. *)
Definition handleSubmit (inputText : text) : list Effect :=
  let text := trim inputText in
  if bool_decide (text = []) then [Alert "请输入任务内容"]
  else if bool_decide (5000 < length text)
       then [Alert "任务内容过长（限制 5000 字符）"]
       else [EmitSubmit text].

(** [handleClear()]: the new [inputText] and the effects. *)
Definition handleClear (inputText : text) : text * list Effect :=
  ([], [EmitClear]).

(** [handleKeydown(event)], by [event.ctrlKey], [event.metaKey] and
    [event.key]. *)
Definition handleKeydown (ctrlKey metaKey : bool) (key : string) (inputText : text)
  : list Effect :=
  if (ctrlKey || metaKey) && bool_decide (key = "Enter")
  then PreventDefault :: handleSubmit inputText
  else [].

(** [:disabled] of the send button: [disabled || !inputText.trim()]. *)
Definition send_disabled (disabled : bool) (inputText : text) : bool :=
  disabled || bool_decide (trim inputText = []).

(** [:disabled] of the clear button: [disabled && !inputText]. *)
Definition clear_disabled (disabled : bool) (inputText : text) : bool :=
  disabled && bool_decide (inputText = []).

End InputArea.

(** * Properties *)

(** ** Examples of the string functions *)

Example trim_ex1 : trim (" {" +:+ String "013"%char nl) = "{".
Proof. reflexivity. Qed.

Example trim_ex2 : trim (utf8 [194; 160; 125; 227; 128; 128]%N) = "}".
Proof. vm_compute. reflexivity. Qed.

Example split_ex1 : split_nl ("a" +:+ nl +:+ "b" +:+ nl) = ["a"; "b"; ""].
Proof. reflexivity. Qed.

Example endsWith_ex1 : endsWith ("ab" +:+ nl) nl = true ∧ endsWith "ab" nl = false.
Proof. split; reflexivity. Qed.

(** ** Examples of the read loop *)

(** A chunk with two complete lines and the beginning of a third: the two
    lines are handled, the rest is carried over. *)
Example readChunk_ex1 :
  readChunk Sample.parse
    ("data: " +:+ Sample.json "{'type':'connection','node':'supervisor','message':'hi'}"
     +:+ nl +:+ ": comment" +:+ nl +:+ "data: {")
    ("", started_run)
  = ("data: {",
     onParsed (mkMessage (Some "connection") (Some "supervisor") None (Some "hi")
                         None None None None) started_run).
Proof. vm_compute. reflexivity. Qed.

(** The end of the object arrives with the next chunk, after the carry-over. *)
Example readChunk_ex2 :
  (readChunks Sample.parse
     ["data: " +:+ Sample.json "{'type':'thinking','node':'super";
      Sample.json "visor','message':'x'}" +:+ nl]
     ("", started_run)).2
  = onParsed (mkMessage (Some "thinking") (Some "supervisor") None (Some "x")
                        None None None None) started_run.
Proof. vm_compute. reflexivity. Qed.

(** An entry without [message] in the main slot: the merge raises, the
    [catch] logs, and the tracker is not reached. *)
Example raise_skips_tracker :
  let st := onParsed (mkMessage (Some "status") (Some "supervisor") (Some "主管")
                                None None None None None) started_run in
  aggregate (event "result" "supervisor" "主管" "r") st = None
  ∧ onParsed (event "result" "supervisor" "主管" "r") st = st.
Proof. split; reflexivity. Qed.

(** ** Arrays, the store and the setters *)

Lemma at_index_nat {A} (arr : list A) (i : nat) :
  at_index arr (Z.of_nat i) = arr !! i.
Proof.
  unfold at_index. destruct (Z.ltb_spec (Z.of_nat i) 0); [lia|].
  by rewrite Nat2Z.id.
Qed.

Lemma at_index_Some {A} (arr : list A) (z : Z) (x : A) :
  at_index arr z = Some x → ∃ i : nat, z = Z.of_nat i ∧ arr !! i = Some x.
Proof.
  unfold at_index. destruct (Z.ltb_spec z 0); [done|].
  intros Hx. exists (Z.to_nat z). split; [lia|done].
Qed.

Lemma at_index_closed {A} (arr : list A) : at_index arr (-1) = None.
Proof. done. Qed.

Lemma splice1_insert {A} (i : nat) (x : A) (arr : list A) :
  i < length arr → splice1 i x arr = <[i:=x]> arr.
Proof. intros Hi. unfold splice1. by rewrite insert_take_drop. Qed.

Lemma entry_nat (st : App) (i : nat) :
  entry st (Z.of_nat i) = l ← messages st !! i; heap st !! l.
Proof. unfold entry. by rewrite at_index_nat. Qed.

Lemma entry_Some (st : App) (z : Z) (e : Message) :
  entry st z = Some e →
  ∃ (i : nat) (l : loc),
    z = Z.of_nat i ∧ messages st !! i = Some l ∧ heap st !! l = Some e.
Proof.
  unfold entry. destruct (at_index (messages st) z) as [l|] eqn:Hl; [|done].
  simpl. intros He. apply at_index_Some in Hl as (i & -> & Hi). eauto.
Qed.

Lemma main_slot_open (st : App) (cur : Message) :
  main_slot st cur → currentMainMessageIndex st ≠ (-1)%Z.
Proof.
  unfold main_slot. intros H Hc. rewrite Hc in H. done.
Qed.

(** ** Strings *)

Lemma append_cons (a : ascii) (s t : string) : String a s +:+ t = String a (s +:+ t).
Proof. done. Qed.

Lemma append_nil_r (s : string) : s +:+ "" = s.
Proof. induction s as [|a s IH]; [done|]. by rewrite append_cons, IH. Qed.

Lemma append_assoc (s t u : string) : (s +:+ t) +:+ u = s +:+ t +:+ u.
Proof. induction s as [|a s IH]; [done|]. by rewrite !append_cons, IH. Qed.

Lemma rev_app_append (s t : string) : String.rev_app s t = String.rev s +:+ t.
Proof.
  unfold String.rev. revert t. induction s as [|a s IH]; intros t; [done|].
  cbn. rewrite (IH (String a "")), IH, append_assoc. done.
Qed.

Lemma rev_cons (a : ascii) (s : string) :
  String.rev (String a s) = String.rev s +:+ String a "".
Proof. unfold String.rev at 1. cbn. apply rev_app_append. Qed.

Lemma rev_append (s t : string) : String.rev (s +:+ t) = String.rev t +:+ String.rev s.
Proof.
  induction s as [|a s IH].
  - by rewrite append_nil_r.
  - by rewrite append_cons, !rev_cons, IH, append_assoc.
Qed.

Lemma rev_nonempty (s : string) :
  s ≠ "" → ∃ (c : ascii) (r : string), String.rev s = String c r.
Proof.
  destruct s as [|a s]; [done|]. intros _. rewrite rev_cons.
  destruct (String.rev s) as [|c r]; eauto.
Qed.

Lemma prefix_one (a c : ascii) (r : string) :
  String.prefix (String a "") (String c r) = bool_decide (a = c).
Proof.
  change (String.prefix (String a "") (String c r))
    with (match ascii_dec a c with
          | left _ => String.prefix "" r
          | right _ => false
          end).
  destruct (ascii_dec a c) as [->|Hne].
  - rewrite bool_decide_eq_true_2 by done. by destruct r.
  - by rewrite bool_decide_eq_false_2.
Qed.

(** Whether a text ends in a line feed is decided by its last part. *)
Lemma endsWith_nl_append (acc f : string) :
  f ≠ "" → endsWith (acc +:+ f) nl = endsWith f nl.
Proof.
  intros Hf. unfold endsWith. rewrite rev_append.
  destruct (rev_nonempty f Hf) as (c & r & ->).
  rewrite append_cons. change (String.rev nl) with (String "010"%char "").
  by rewrite !prefix_one.
Qed.

Lemma endsWith_nl_nonempty (f : string) : endsWith f nl = true → f ≠ "".
Proof. by intros H ->. Qed.

(** ** The join of the spec *)

(** Where no fragment but the last is empty or ends in a line feed, the
    join is the plain one, with a line feed between neighbours. *)
Lemma join_onto_concat (fs : list string) :
  ∀ acc : string,
    (fs ≠ [] → endsWith acc nl = false) →
    Forall (λ f, f ≠ "" ∧ endsWith f nl = false) (removelast fs) →
    join_onto acc fs =
      match fs with [] => acc | _ => acc +:+ nl +:+ String.concat nl fs end.
Proof.
  induction fs as [|f rest IH]; intros acc Hacc Hgood; [done|].
  cbn [join_onto]. rewrite Hacc by done.
  destruct rest as [|g rest]; [done|].
  cbn [removelast] in Hgood. apply Forall_cons in Hgood as [[Hne Hend] Hgood].
  rewrite IH; [|intros _|done].
  - cbn [String.concat]. by rewrite !append_assoc.
  - rewrite <- append_assoc. by rewrite endsWith_nl_append.
Qed.

Lemma join_single_newlines_concat (fs : list string) :
  Forall (λ f, f ≠ "" ∧ endsWith f nl = false) (removelast fs) →
  join_single_newlines fs = String.concat nl fs.
Proof.
  destruct fs as [|f [|g rest]]; [done..|].
  intros Hgood. cbn [join_single_newlines].
  cbn [removelast] in Hgood. pose proof Hgood as Hgood'.
  apply Forall_cons in Hgood' as [[Hne Hend] Hrest].
  rewrite join_onto_concat; [done| |done]. by intros _.
Qed.

(** Where every fragment ends in a line feed, nothing is inserted. *)
Lemma join_onto_terminated (fs : list string) :
  ∀ acc : string,
    endsWith acc nl = true →
    Forall (λ f, endsWith f nl = true) fs →
    join_onto acc fs = acc +:+ String.concat "" fs.
Proof.
  induction fs as [|f rest IH]; intros acc Hacc Hgood.
  - by rewrite append_nil_r.
  - apply Forall_cons in Hgood as [Hf Hrest].
    cbn [join_onto]. rewrite Hacc. cbn [String.append].
    rewrite IH; [|by rewrite endsWith_nl_append by (by apply endsWith_nl_nonempty)|done].
    rewrite append_assoc. destruct rest; [by rewrite append_nil_r|done].
Qed.

Lemma join_single_newlines_terminated (fs : list string) :
  Forall (λ f, endsWith f nl = true) fs →
  join_single_newlines fs = String.concat "" fs.
Proof.
  destruct fs as [|f rest]; [done|]. intros Hgood.
  apply Forall_cons in Hgood as [Hf Hrest]. cbn [join_single_newlines].
  rewrite join_onto_terminated by done.
  destruct rest; [by rewrite append_nil_r|done].
Qed.

(** ** The transcript aggregator, branch by branch *)

Ltac by_type :=
  unfold is_type;
  repeat match goal with H : type _ = Some _ |- _ => rewrite !H end;
  repeat first
    [ rewrite bool_decide_eq_true_2 by reflexivity
    | rewrite bool_decide_eq_false_2 by discriminate ];
  cbn [orb andb negb].

Lemma aggregate_mergeable_open (ev : Message) (st : App) :
  mergeable ev → currentMainMessageIndex st ≠ (-1)%Z →
  aggregate ev st = merge_main (merge_separator ev) (merge_text ev) st.
Proof.
  intros Hm Ho. unfold aggregate, merge_separator, merge_text.
  rewrite (bool_decide_eq_false_2 _ Ho).
  destruct Hm as [H|[H|[H|[H|H]]]]; by by_type.
Qed.

Lemma aggregate_mergeable_closed (ev : Message) (st : App) :
  mergeable ev → currentMainMessageIndex st = (-1)%Z →
  aggregate ev st = Some (open_main ev st).
Proof.
  intros Hm Hc. unfold aggregate.
  rewrite (bool_decide_eq_true_2 _ Hc).
  destruct Hm as [H|[H|[H|[H|H]]]]; by by_type.
Qed.

Lemma merge_main_open (sep text : string) (st : App) (cur : Message) (acc : string) :
  main_slot st cur → message cur = Some acc →
  ∃ (i : nat) (l : loc),
    currentMainMessageIndex st = Z.of_nat i
    ∧ messages st !! i = Some l ∧ heap st !! l = Some cur
    ∧ merge_main sep text st =
        Some (merged st i
                (spread_message cur
                   (acc +:+ (if endsWith acc nl then "" else sep) +:+ text))).
Proof.
  intros Hs Hacc. apply entry_Some in Hs as (i & l & Hi & Hl & Hc).
  exists i, l. repeat split; try done.
  unfold merge_main. rewrite Hi, at_index_nat, Hl, Hc, Hacc. cbn.
  rewrite Nat2Z.id, splice1_insert by (by eapply lookup_lt_Some).
  done.
Qed.

Lemma merge_main_raises (sep text : string) (st : App) (cur : Message) :
  main_slot st cur → message cur = None → merge_main sep text st = None.
Proof.
  intros Hs Hacc. apply entry_Some in Hs as (i & l & Hi & Hl & Hc).
  unfold merge_main. by rewrite Hi, at_index_nat, Hl, Hc, Hacc.
Qed.

Lemma entry_merged_at (st : App) (i : nat) (l : loc) (new : Message) :
  messages st !! i = Some l → entry (merged st i new) (Z.of_nat i) = Some new.
Proof.
  intros Hl. rewrite entry_nat. cbn.
  rewrite list_lookup_insert_eq by (by eapply lookup_lt_Some). cbn.
  by rewrite lookup_app_r, Nat.sub_diag.
Qed.

Lemma entry_open_main (ev : Message) (st : App) :
  entry (open_main ev st) (currentMainMessageIndex (open_main ev st)) = Some ev
  ∧ currentMainMessageIndex (open_main ev st) = Z.of_nat (length (messages st))
  ∧ messages (open_main ev st) = messages st ++ [length (heap st)]
  ∧ heap (open_main ev st) = heap st ++ [ev].
Proof.
  cbn. rewrite length_app. cbn.
  replace (Z.of_nat (length (messages st) + 1) - 1)%Z
    with (Z.of_nat (length (messages st))) by lia.
  repeat split; try done.
  rewrite entry_nat. cbn.
  rewrite lookup_app_r, Nat.sub_diag by done. cbn.
  by rewrite lookup_app_r, Nat.sub_diag.
Qed.

(** ** Events that the tracker ignores *)

Lemma updateAgentFromMessage_inert (ev : Message) (st : App) :
  is_type ev "status" = false → is_type ev "result" = false →
  is_type ev "final" = false → is_type ev "error" = false →
  is_type ev "end" = false →
  updateAgentFromMessage ev st = st.
Proof.
  intros H1 H2 H3 H4 H5. unfold updateAgentFromMessage.
  rewrite H1, H2, H3, H4, H5. cbn. by destruct (find_agent _ _).
Qed.

Lemma onParsed_thinking_closed (ev : Message) (f : string) (st : App) :
  thinking_fragment ev f → currentMainMessageIndex st = (-1)%Z →
  onParsed ev st = open_main ev st.
Proof.
  intros (Hty & Hnode & _ & _) Hc. unfold onParsed.
  rewrite (bool_decide_eq_true_2 _ Hnode).
  rewrite aggregate_mergeable_closed by (done || by left).
  unfold afterAggregate.
  rewrite updateAgentFromMessage_inert by (by by_type).
  by by_type.
Qed.

Lemma onParsed_thinking_open (ev : Message) (f : string) (st : App)
    (cur : Message) (acc : string) :
  thinking_fragment ev f → main_slot st cur → message cur = Some acc →
  ∃ (i : nat) (l : loc),
    currentMainMessageIndex st = Z.of_nat i ∧ messages st !! i = Some l
    ∧ onParsed ev st =
        merged st i
          (spread_message cur (acc +:+ (if endsWith acc nl then "" else nl) +:+ f)).
Proof.
  intros (Hty & Hnode & Hf & _) Hs Hacc.
  destruct (merge_main_open (merge_separator ev) (merge_text ev) st cur acc Hs Hacc)
    as (i & l & Hi & Hl & _ & Hm).
  exists i, l. repeat split; try done.
  unfold onParsed. rewrite (bool_decide_eq_true_2 _ Hnode).
  rewrite aggregate_mergeable_open, Hm
    by (by left || by eapply main_slot_open).
  unfold afterAggregate.
  rewrite updateAgentFromMessage_inert by (by by_type).
  unfold merge_separator, merge_text. rewrite Hf. by by_type.
Qed.

(** ** Runs of thinking events *)

Lemma thinking_run_open (evs : list Message) :
  ∀ (fs : list string) (st : App) (cur : Message) (acc : string),
    Forall2 thinking_fragment evs fs →
    main_slot st cur → message cur = Some acc →
    ∃ cur' : Message,
      main_slot (onParsedAll evs st) cur'
      ∧ message cur' = Some (join_onto acc fs)
      ∧ same_but_message cur cur'
      ∧ currentMainMessageIndex (onParsedAll evs st) = currentMainMessageIndex st
      ∧ length (messages (onParsedAll evs st)) = length (messages st)
      ∧ ∀ j : nat, Z.of_nat j ≠ currentMainMessageIndex st →
          messages (onParsedAll evs st) !! j = messages st !! j.
Proof.
  induction evs as [|ev evs IH]; intros fs st cur acc Hfs Hs Hacc.
  - apply Forall2_nil_inv_l in Hfs as ->. exists cur. by repeat split.
  - apply Forall2_cons_inv_l in Hfs as (f & fs' & Hf & Hfs & ->).
    destruct (onParsed_thinking_open ev f st cur acc Hf Hs Hacc)
      as (i & l & Hi & Hl & Hstep).
    cbn [onParsedAll foldl]. fold (onParsedAll evs (onParsed ev st)).
    rewrite Hstep.
    set (new := spread_message cur _).
    destruct (IH fs' (merged st i new) new
                (acc +:+ (if endsWith acc nl then "" else nl) +:+ f))
      as (cur' & Hs' & Hm' & Hsame & Hidx & Hlen & Hother); try done.
    { unfold main_slot. cbn [merged set_messages set_heap currentMainMessageIndex].
      rewrite Hi. by eapply entry_merged_at. }
    exists cur'. cbn [join_onto].
    split; [done|]. split; [done|]. split; [|split; [done|split]].
    + destruct Hsame as (?&?&?&?&?&?&?). by repeat split.
    + rewrite Hlen. cbn. by rewrite length_insert.
    + intros j Hj. rewrite Hother by done. cbn.
      rewrite list_lookup_insert_ne; [done|]. intros ->. by rewrite Hi in Hj.
Qed.

(** ** The shape of a step *)

Lemma merge_main_step (sep text : string) (st st' : App) :
  merge_main sep text st = Some st' → transcript_step st st'.
Proof.
  unfold merge_main.
  destruct (at_index (messages st) (currentMainMessageIndex st)) as [l|] eqn:Hl.
  2: { intros [= <-]. by apply ts_same. }
  destruct (heap st !! l) as [cur|] eqn:Hcur.
  2: { intros [= <-]. by apply ts_same. }
  destruct (message cur) as [m|] eqn:Hm; [|done].
  cbn. intros [= <-].
  apply at_index_Some in Hl as (i & Hi & Hl).
  eapply (ts_merge _ _ i l cur); try done.
  cbn. rewrite Hi, Nat2Z.id.
  apply splice1_insert. by eapply lookup_lt_Some.
Qed.

Lemma open_main_step (ev : Message) (st : App) : transcript_step st (open_main ev st).
Proof. by apply (ts_push _ _ ev). Qed.

Lemma aggregate_step (ev : Message) (st st' : App) :
  aggregate ev st = Some st' → transcript_step st st'.
Proof.
  unfold aggregate. cbv zeta.
  repeat match goal with
         | |- context [if ?b then _ else _] => destruct b
         end; cbn [negb];
    try (intros [= <-]; first [ apply open_main_step | by apply ts_same
                              | by apply (ts_push _ _ ev) ]);
    apply merge_main_step.
Qed.

(** The aggregator touches the transcript and the main-slot index only. *)
Lemma merge_main_frame (sep text : string) (st st' : App) :
  merge_main sep text st = Some st' →
  agentTeam st' = agentTeam st ∧ currentActiveAgent st' = currentActiveAgent st
  ∧ loading st' = loading st ∧ error st' = error st
  ∧ currentMainMessageIndex st' = currentMainMessageIndex st.
Proof.
  unfold merge_main.
  destruct (at_index _ _) as [l|]; [|by intros [= <-]].
  destruct (heap st !! l) as [cur|]; [|by intros [= <-]].
  destruct (message cur) as [m|]; [|done].
  cbn. by intros [= <-].
Qed.

Lemma aggregate_frame (ev : Message) (st st' : App) :
  aggregate ev st = Some st' →
  agentTeam st' = agentTeam st ∧ currentActiveAgent st' = currentActiveAgent st
  ∧ loading st' = loading st ∧ error st' = error st.
Proof.
  unfold aggregate. cbv zeta.
  repeat match goal with
         | |- context [if ?b then _ else _] => destruct b
         end; cbn [negb];
    try (by intros [= <-]);
    intros Hm; apply merge_main_frame in Hm as (?&?&?&?&?); done.
Qed.

(** The tracker touches the agents and the indicator only, and reads
    nothing else. *)
Lemma updateAgentFromMessage_frame (ev : Message) (st : App) :
  heap (updateAgentFromMessage ev st) = heap st
  ∧ messages (updateAgentFromMessage ev st) = messages st
  ∧ currentMainMessageIndex (updateAgentFromMessage ev st) = currentMainMessageIndex st
  ∧ loading (updateAgentFromMessage ev st) = loading st
  ∧ error (updateAgentFromMessage ev st) = error st.
Proof.
  unfold updateAgentFromMessage.
  repeat match goal with
         | |- context [match ?x with _ => _ end] => destruct x
         end; done.
Qed.

Lemma updateAgentFromMessage_agents (ev : Message) (st1 st2 : App) :
  agentTeam st1 = agentTeam st2 → currentActiveAgent st1 = currentActiveAgent st2 →
  agentTeam (updateAgentFromMessage ev st1) = agentTeam (updateAgentFromMessage ev st2)
  ∧ currentActiveAgent (updateAgentFromMessage ev st1)
    = currentActiveAgent (updateAgentFromMessage ev st2).
Proof.
  intros Ht Ha. unfold updateAgentFromMessage. rewrite Ht.
  repeat match goal with
         | |- context [match ?x with _ => _ end] => destruct x
         end; cbn; by rewrite ?Ht, ?Ha.
Qed.

Lemma afterAggregate_frame (ev : Message) (st1 : App) :
  heap (afterAggregate ev st1) = heap st1
  ∧ messages (afterAggregate ev st1) = messages st1
  ∧ error (afterAggregate ev st1) = error st1.
Proof.
  destruct (updateAgentFromMessage_frame ev st1) as (Hh & Hm & _ & _ & He).
  unfold afterAggregate. by destruct (_ || _).
Qed.

Lemma onParsed_step (ev : Message) (st : App) : transcript_step st (onParsed ev st).
Proof.
  unfold onParsed.
  destruct (if bool_decide (node ev = Some "supervisor")
            then aggregate ev st else Some st) as [st1|] eqn:Hagg.
  2: { by apply ts_same. }
  assert (transcript_step st st1) as Hstep.
  { destruct (bool_decide _); [by eapply aggregate_step|].
    injection Hagg as <-. by apply ts_same. }
  destruct (afterAggregate_frame ev st1) as (Hh & Hm & _).
  destruct Hstep as [?|m ? ?|i l cur text ? ? ? ? ?].
  - apply ts_same; congruence.
  - apply (ts_push _ _ m); congruence.
  - apply (ts_merge _ _ i l cur text); congruence.
Qed.

(** ** What a step keeps *)

Lemma transcript_step_heap (st st' : App) (l : loc) (o : Message) :
  transcript_step st st' → heap st !! l = Some o → heap st' !! l = Some o.
Proof.
  intros [Hh _|m Hh _|i l0 cur text _ _ _ Hh _] Hl; rewrite Hh; try done;
    by apply lookup_app_l_Some.
Qed.

Lemma same_but_message_refl (e : Message) : same_but_message e e.
Proof. by repeat split. Qed.

Lemma same_but_message_trans (e1 e2 e3 : Message) :
  same_but_message e1 e2 → same_but_message e2 e3 → same_but_message e1 e3.
Proof.
  intros (?&?&?&?&?&?&?) (?&?&?&?&?&?&?). repeat split; congruence.
Qed.

Lemma same_but_message_spread (e : Message) (text : string) :
  same_but_message e (spread_message e text).
Proof. by repeat split. Qed.

Lemma transcript_step_entry (st st' : App) (j : Z) (e : Message) :
  transcript_step st st' → entry st j = Some e →
  ∃ e' : Message, entry st' j = Some e' ∧ same_but_message e e'.
Proof.
  intros Hstep He. apply entry_Some in He as (k & l & -> & Hk & Hl).
  rewrite entry_nat.
  destruct Hstep as [Hh Hm|m Hh Hm|i l0 cur text Hi Hl0 Hcur Hh Hm]; rewrite Hh, Hm.
  - exists e. rewrite Hk. cbn. split; [done|apply same_but_message_refl].
  - exists e. rewrite (lookup_app_l_Some _ _ _ _ Hk). cbn.
    split; [by apply lookup_app_l_Some|apply same_but_message_refl].
  - destruct (decide (i = k)) as [->|Hne].
    + rewrite list_lookup_insert_eq by (by eapply lookup_lt_Some). cbn.
      rewrite lookup_app_r, Nat.sub_diag by done. cbn.
      exists (spread_message cur text). split; [done|].
      assert (e = cur) as -> by congruence. apply same_but_message_spread.
    + rewrite list_lookup_insert_ne, Hk by done. cbn.
      exists e. split; [by apply lookup_app_l_Some|apply same_but_message_refl].
Qed.

Lemma onParsedAll_cons (ev : Message) (evs : list Message) (st : App) :
  onParsedAll (ev :: evs) st = onParsedAll evs (onParsed ev st).
Proof. done. Qed.

Lemma onParsedAll_heap (evs : list Message) :
  ∀ (st : App) (l : loc) (o : Message),
    heap st !! l = Some o → heap (onParsedAll evs st) !! l = Some o.
Proof.
  induction evs as [|ev evs IH]; intros st l o Hl; [done|].
  rewrite onParsedAll_cons. apply IH.
  eapply transcript_step_heap; [apply onParsed_step|done].
Qed.

(** ** The line decoder *)

Lemma processLine_decodes (JSON_parse : string → option Message)
    (line : string) (ev : Message) (st : App) :
  decodes_to JSON_parse line ev →
  processLine JSON_parse line st = onParsed ev st.
Proof.
  intros (Hne & Hpre & Hend & Hparse). unfold processLine.
  by rewrite (bool_decide_eq_false_2 _ Hne), Hpre, Hend, Hparse.
Qed.

Lemma processLines_decodes (JSON_parse : string → option Message)
    (lines : list string) :
  ∀ (evs : list Message) (st : App),
    Forall2 (decodes_to JSON_parse) lines evs →
    processLines JSON_parse lines st = onParsedAll evs st.
Proof.
  induction lines as [|line lines IH]; intros evs st Hd.
  - by apply Forall2_nil_inv_l in Hd as ->.
  - apply Forall2_cons_inv_l in Hd as (ev & evs' & Hev & Hd & ->).
    cbn. rewrite (processLine_decodes _ _ ev) by done. by apply IH.
Qed.

(** ** The start of a run *)

Lemma handleSubmit_state (task now : string) (st0 : App) :
  handleSubmit task now st0 =
    mkApp (heap st0 ++ [userMessage task now]) [length (heap st0)] true ""
          (currentActiveAgent st0) (-1)
          ((λ a, mkAgent (name a) (avatar a) "active" true (role a) (layer a))
             <$> agentTeam st0).
Proof. done. Qed.

Lemma list_two {A} (xs : list A) (a b : A) :
  length xs = 2 → xs !! 0 = Some a → xs !! 1 = Some b → xs = [a; b].
Proof.
  destruct xs as [|x [|y [|z xs]]]; cbn; intros Hlen Ha Hb; try done.
  congruence.
Qed.

(** ** The transcript: C1, C2, C7, C10, C8 and C6 *)

(** C1.  A run is started by [handleSubmit] and receives event lines that
    decode to supervisor-node thinking events, none a delta, with the
    text fragments [fs].  Then the rendered transcript has exactly one
    entry, it is the main slot's entry, and its text is the fragments
    joined by single line feeds, a line feed being left out where the
    text so far already ends in one. *)
Theorem C1_thinking_fragments_joined
    (JSON_parse : string → option Message) (task now : string) (st0 : App)
    (lines : list string) (evs : list Message) (fs : list string) :
  lines ≠ [] →
  Forall2 (decodes_to JSON_parse) lines evs →
  Forall2 thinking_fragment evs fs →
  ∃ e : Message,
    main_slot (processLines JSON_parse lines (handleSubmit task now st0)) e
    ∧ filteredMessages
        (entries (processLines JSON_parse lines (handleSubmit task now st0))) = [e]
    ∧ message e = Some (join_single_newlines fs).
Proof.
  intros Hne Hdec Hfs.
  rewrite (processLines_decodes _ _ evs) by done.
  destruct evs as [|ev evs].
  { apply Forall2_nil_inv_r in Hdec. done. }
  apply Forall2_cons_inv_l in Hfs as (f & fs' & Hf & Hfs & ->).
  rewrite onParsedAll_cons.
  set (st := handleSubmit task now st0).
  rewrite (onParsed_thinking_closed ev f) by done.
  destruct (entry_open_main ev st) as (Hslot & Hidx & Hmsgs & Hheap).
  destruct (thinking_run_open evs fs' (open_main ev st) ev f)
    as (e & Hs & Hm & Hsame & Hidx' & Hlen & Hother); try done.
  { by destruct Hf as (_ & _ & ? & _). }
  exists e. split; [done|]. split; [|done].
  set (st' := onParsedAll evs (open_main ev st)) in *.
  assert (messages st = [length (heap st0)]) as Hst by done.
  pose proof Hs as Hs'. unfold main_slot in Hs'.
  rewrite Hidx', Hidx, Hst in Hs'. cbn in Hs'.
  apply entry_Some in Hs' as (k & l & Hk & Hl & He).
  assert (k = 1) as -> by lia.
  assert (messages st' = [length (heap st0); l]) as Hms.
  { apply list_two; [| |done].
    - by rewrite Hlen, Hmsgs, Hst.
    - rewrite Hother by (rewrite Hidx, Hst; cbn; lia).
      by rewrite Hmsgs, Hst. }
  assert (heap st' !! length (heap st0) = Some (userMessage task now)) as Hu.
  { apply onParsedAll_heap. rewrite Hheap. apply lookup_app_l_Some.
    subst st. rewrite handleSubmit_state. cbn.
    by rewrite lookup_app_r, Nat.sub_diag. }
  unfold entries. rewrite Hms. cbn. rewrite Hu, He. cbn.
  unfold filteredMessages.
  rewrite decide_False by (intros Hu'; by apply Hu').
  rewrite decide_True; [done|].
  destruct Hsame as (-> & _). destruct Hf as (-> & _). done.
Qed.

(** The input of the spec: two lines with the messages x and y give a
    single entry with the text x, line feed, y. *)
Lemma C1_two_lines :
  ∃ e : Message,
    main_slot
      (processLines Sample.parse
         ["data: " +:+ Sample.json
            "{'type':'thinking','node':'supervisor','agent':'A','message':'x'}";
          "data: " +:+ Sample.json
            "{'type':'thinking','node':'supervisor','agent':'A','message':'y'}"]
         (handleSubmit "task" "2026-01-01T00:00:00.000Z" initial)) e
    ∧ filteredMessages
        (entries
           (processLines Sample.parse
              ["data: " +:+ Sample.json
                 "{'type':'thinking','node':'supervisor','agent':'A','message':'x'}";
               "data: " +:+ Sample.json
                 "{'type':'thinking','node':'supervisor','agent':'A','message':'y'}"]
              (handleSubmit "task" "2026-01-01T00:00:00.000Z" initial))) = [e]
    ∧ message e = Some ("x" +:+ nl +:+ "y").
Proof.
  apply (C1_thinking_fragments_joined Sample.parse "task" "2026-01-01T00:00:00.000Z"
           initial _
           [mkMessage (Some "thinking") (Some "supervisor") (Some "A") (Some "x")
                      None None None None;
            mkMessage (Some "thinking") (Some "supervisor") (Some "A") (Some "y")
                      None None None None]
           ["x"; "y"]).
  - discriminate.
  - repeat constructor; vm_compute; congruence.
  - repeat constructor; vm_compute; congruence.
Defined.

Lemma onParsed_supervisor (ev : Message) (st st1 : App) :
  node ev = Some "supervisor" → aggregate ev st = Some st1 →
  onParsed ev st = afterAggregate ev st1.
Proof.
  intros Hn Ha. unfold onParsed. by rewrite (bool_decide_eq_true_2 _ Hn), Ha.
Qed.

Lemma onParsed_other_node (ev : Message) (st : App) :
  node ev ≠ Some "supervisor" → onParsed ev st = afterAggregate ev st.
Proof.
  intros Hn. unfold onParsed. by rewrite (bool_decide_eq_false_2 _ Hn).
Qed.

Lemma entry_afterAggregate (ev : Message) (st1 : App) (j : Z) :
  entry (afterAggregate ev st1) j = entry st1 j.
Proof.
  destruct (afterAggregate_frame ev st1) as (Hh & Hm & _).
  unfold entry. by rewrite Hh, Hm.
Qed.

(** C2.  The aggregator on a result or final event with the text
    [text].  With the main slot open on an entry with the text [acc],
    the slot's entry becomes one with [acc], the separator and [text],
    where the separator is two line feeds if [acc] does not end in a
    line feed and nothing if it does; the index and the number of
    entries stay.  With the main slot closed, the event itself is
    appended and the main slot is opened on it.  In both cases that
    entry is what the transcript holds at this position once a
    supervisor-node event is fully handled. *)
Theorem C2_result_final_merge (ev : Message) (st : App) (text : string) :
  type ev = Some "result" ∨ type ev = Some "final" →
  message ev = Some text →
  (∀ (cur : Message) (acc : string),
     main_slot st cur → message cur = Some acc →
     ∃ st1 : App,
       aggregate ev st = Some st1
       ∧ currentMainMessageIndex st1 = currentMainMessageIndex st
       ∧ length (messages st1) = length (messages st)
       ∧ main_slot st1
           (spread_message cur
              (acc +:+ (if endsWith acc nl then "" else nl +:+ nl) +:+ text))
       ∧ (node ev = Some "supervisor" →
          entry (onParsed ev st) (currentMainMessageIndex st)
          = Some (spread_message cur
                    (acc +:+ (if endsWith acc nl then "" else nl +:+ nl) +:+ text))))
  ∧ (currentMainMessageIndex st = (-1)%Z →
     ∃ st1 : App,
       aggregate ev st = Some st1
       ∧ messages st1 = messages st ++ [length (heap st)]
       ∧ currentMainMessageIndex st1 = Z.of_nat (length (messages st))
       ∧ main_slot st1 ev
       ∧ (node ev = Some "supervisor" →
          entry (onParsed ev st) (Z.of_nat (length (messages st))) = Some ev)).
Proof.
  intros Hty Htext.
  assert (mergeable ev) as Hm by (unfold mergeable; tauto).
  assert (merge_separator ev = nl +:+ nl) as Hsep.
  { unfold merge_separator. destruct Hty; by by_type. }
  assert (merge_text ev = text) as Htxt.
  { unfold merge_text. rewrite Htext. destruct Hty; by by_type. }
  split.
  - intros cur acc Hs Hacc.
    destruct (merge_main_open (merge_separator ev) (merge_text ev) st cur acc Hs Hacc)
      as (i & l & Hi & Hl & _ & Hmerge).
    rewrite Hsep, Htxt in Hmerge.
    assert (aggregate ev st = Some
              (merged st i
                 (spread_message cur
                    (acc +:+ (if endsWith acc nl then "" else nl +:+ nl) +:+ text))))
      as Hagg.
    { rewrite aggregate_mergeable_open by (done || by eapply main_slot_open).
      by rewrite Hsep, Htxt. }
    eexists. split; [exact Hagg|].
    split; [done|]. split; [cbn; by rewrite length_insert|].
    assert (entry (merged st i
                     (spread_message cur
                        (acc +:+ (if endsWith acc nl then "" else nl +:+ nl) +:+ text)))
                  (Z.of_nat i) = Some _) as Hentry by (by eapply entry_merged_at).
    split.
    + unfold main_slot. cbn [merged set_messages set_heap currentMainMessageIndex].
      by rewrite Hi.
    + intros Hn. rewrite (onParsed_supervisor ev st _ Hn Hagg).
      by rewrite entry_afterAggregate, Hi.
  - intros Hc. exists (open_main ev st).
    destruct (entry_open_main ev st) as (Hslot & Hidx & Hmsgs & _).
    pose proof (aggregate_mergeable_closed ev st Hm Hc) as Hagg.
    split; [done|]. split; [done|]. split; [done|]. split; [done|].
    intros Hn. rewrite (onParsed_supervisor ev st _ Hn Hagg).
    by rewrite entry_afterAggregate, <- Hidx.
Qed.

(** A result after a thinking event: x, a blank line, r. *)
Lemma C2_result_after_thinking :
  ∃ st1 : App,
    aggregate (event "result" "supervisor" "A" "r")
              (onParsed (event "thinking" "supervisor" "A" "x") started_run)
      = Some st1
    ∧ currentMainMessageIndex st1 = 1%Z
    ∧ length (messages st1) = 2
    ∧ main_slot st1 (event "thinking" "supervisor" "A" ("x" +:+ nl +:+ nl +:+ "r"))
    ∧ (node (event "result" "supervisor" "A" "r") = Some "supervisor" →
       entry (onParsed (event "result" "supervisor" "A" "r")
                (onParsed (event "thinking" "supervisor" "A" "x") started_run)) 1
       = Some (event "thinking" "supervisor" "A" ("x" +:+ nl +:+ nl +:+ "r"))).
Proof.
  destruct (C2_result_final_merge
              (event "result" "supervisor" "A" "r")
              (onParsed (event "thinking" "supervisor" "A" "x") started_run)
              "r" (or_introl eq_refl) eq_refl) as [Hopen _].
  apply (Hopen (event "thinking" "supervisor" "A" "x") "x"); reflexivity.
Defined.

(** C7.  A merge of a thinking, status, result, final or error event
    into an open main slot stores a reference to a new object at the
    main-slot index: the reference was not in use before and differs
    from the one it replaces, the new object is the spread of the old
    one with the extended text, and every object of the store,
    the replaced entry among them, is what it was. *)
Theorem C7_merge_replaces_entry (ev : Message) (st : App) (cur : Message)
    (acc : string) :
  mergeable ev → main_slot st cur → message cur = Some acc →
  ∃ (i : nat) (old new : loc) (st1 : App),
    currentMainMessageIndex st = Z.of_nat i
    ∧ messages st !! i = Some old ∧ heap st !! old = Some cur
    ∧ aggregate ev st = Some st1
    ∧ messages st1 !! i = Some new
    ∧ new ≠ old ∧ heap st !! new = None
    ∧ heap st1 !! new =
        Some (spread_message cur
                (acc +:+ (if endsWith acc nl then "" else merge_separator ev)
                     +:+ merge_text ev))
    ∧ heap st1 !! old = Some cur
    ∧ ∀ (k : loc) (o : Message), heap st !! k = Some o → heap st1 !! k = Some o.
Proof.
  intros Hm Hs Hacc.
  destruct (merge_main_open (merge_separator ev) (merge_text ev) st cur acc Hs Hacc)
    as (i & l & Hi & Hl & Hcur & Hmerge).
  exists i, l, (length (heap st)). eexists.
  split; [done|]. split; [done|]. split; [done|].
  split. { by rewrite aggregate_mergeable_open by (done || by eapply main_slot_open). }
  pose proof (lookup_lt_Some _ _ _ Hcur) as Hlt.
  cbn. split. { apply list_lookup_insert_eq. by eapply lookup_lt_Some. }
  split; [lia|]. split. { by apply lookup_ge_None. }
  split. { by rewrite lookup_app_r, Nat.sub_diag. }
  split. { by apply lookup_app_l_Some. }
  intros k o Hk. by apply lookup_app_l_Some.
Qed.

Lemma C7_status_merge_is_a_new_object :
  ∃ (i : nat) (old new : loc) (st1 : App),
    currentMainMessageIndex
      (onParsed (event "thinking" "supervisor" "A" "x") started_run) = Z.of_nat i
    ∧ messages (onParsed (event "thinking" "supervisor" "A" "x") started_run) !! i
      = Some old
    ∧ heap (onParsed (event "thinking" "supervisor" "A" "x") started_run) !! old
      = Some (event "thinking" "supervisor" "A" "x")
    ∧ aggregate (event "status" "supervisor" "主管" "s")
                (onParsed (event "thinking" "supervisor" "A" "x") started_run)
      = Some st1
    ∧ messages st1 !! i = Some new
    ∧ new ≠ old
    ∧ heap (onParsed (event "thinking" "supervisor" "A" "x") started_run) !! new = None
    ∧ heap st1 !! new
      = Some (spread_message (event "thinking" "supervisor" "A" "x")
                ("x" +:+ (if endsWith "x" nl then ""
                          else merge_separator (event "status" "supervisor" "主管" "s"))
                     +:+ merge_text (event "status" "supervisor" "主管" "s")))
    ∧ heap st1 !! old = Some (event "thinking" "supervisor" "A" "x")
    ∧ ∀ (k : loc) (o : Message),
        heap (onParsed (event "thinking" "supervisor" "A" "x") started_run) !! k = Some o →
        heap st1 !! k = Some o.
Proof.
  apply (C7_merge_replaces_entry
           (event "status" "supervisor" "主管" "s")
           (onParsed (event "thinking" "supervisor" "A" "x") started_run)
           (event "thinking" "supervisor" "A" "x") "x").
  - right. left. reflexivity.
  - reflexivity.
  - reflexivity.
Defined.

Lemma onParsedAll_entry (evs : list Message) :
  ∀ (st : App) (j : Z) (e : Message),
    entry st j = Some e →
    ∃ e' : Message, entry (onParsedAll evs st) j = Some e' ∧ same_but_message e e'.
Proof.
  induction evs as [|ev evs IH]; intros st j e He.
  - exists e. split; [done|apply same_but_message_refl].
  - rewrite onParsedAll_cons.
    destruct (transcript_step_entry st (onParsed ev st) j e (onParsed_step ev st) He)
      as (e1 & He1 & Hs1).
    destruct (IH _ _ _ He1) as (e2 & He2 & Hs2).
    exists e2. split; [done|by eapply same_but_message_trans].
Qed.

(** C10.  A supervisor-node event of a mergeable kind that arrives with
    the main slot closed opens the slot at the end of the transcript.
    Whatever events follow, the entry at that position keeps the kind,
    the node, the agent name, the delta flag, the timestamp, the
    subtasks and the current task of the opening event: the merges
    change its text only. *)
Theorem C10_merge_changes_text_only (opener : Message) (evs : list Message)
    (st : App) :
  mergeable opener → node opener = Some "supervisor" →
  currentMainMessageIndex st = (-1)%Z →
  entry (onParsed opener st) (Z.of_nat (length (messages st))) = Some opener
  ∧ ∃ e : Message,
      entry (onParsedAll (opener :: evs) st) (Z.of_nat (length (messages st)))
        = Some e
      ∧ same_but_message opener e.
Proof.
  intros Hm Hn Hc.
  destruct (entry_open_main opener st) as (Hslot & Hidx & _ & _).
  assert (entry (onParsed opener st) (Z.of_nat (length (messages st)))
          = Some opener) as Hopen.
  { rewrite (onParsed_supervisor opener st (open_main opener st))
      by (done || by apply aggregate_mergeable_closed).
    destruct (afterAggregate_frame opener (open_main opener st)) as (Hh & Hms & _).
    rewrite <- Hidx, <- Hslot. unfold entry. by rewrite Hh, Hms. }
  split; [done|]. rewrite onParsedAll_cons. by apply onParsedAll_entry.
Qed.

Lemma C10_status_then_merges :
  entry (onParsed (event "status" "supervisor" "主管" "s") started_run)
        (Z.of_nat (length (messages started_run)))
    = Some (event "status" "supervisor" "主管" "s")
  ∧ ∃ e : Message,
      entry (onParsedAll
               [event "status" "supervisor" "主管" "s";
                event "thinking" "supervisor" "A" "x";
                event "error" "supervisor" "B" "boom";
                event "final" "supervisor" "C" "done"] started_run)
            (Z.of_nat (length (messages started_run))) = Some e
      ∧ same_but_message (event "status" "supervisor" "主管" "s") e.
Proof.
  apply (C10_merge_changes_text_only
           (event "status" "supervisor" "主管" "s")
           [event "thinking" "supervisor" "A" "x";
            event "error" "supervisor" "B" "boom";
            event "final" "supervisor" "C" "done"] started_run).
  - right. left. reflexivity.
  - reflexivity.
  - reflexivity.
Defined.

(** C8.  A supervisor-node event of kind decomposition, assignment,
    execution or aggregation leaves the whole state as it is, the
    transcript and the main-slot index included, although the template
    of [ChatDisplay.vue] has a block for its kind. *)
Theorem C8_displayed_kinds_not_recorded (ev : Message) (st : App) :
  node ev = Some "supervisor" →
  type ev = Some "decomposition" ∨ type ev = Some "assignment"
  ∨ type ev = Some "execution" ∨ type ev = Some "aggregation" →
  aggregate ev st = Some st
  ∧ onParsed ev st = st
  ∧ messages (onParsed ev st) = messages st
  ∧ heap (onParsed ev st) = heap st
  ∧ currentMainMessageIndex (onParsed ev st) = currentMainMessageIndex st
  ∧ is_Some (template ev).
Proof.
  intros Hn Hty.
  assert (aggregate ev st = Some st) as Hagg.
  { unfold aggregate. destruct Hty as [H|[H|[H|H]]]; by by_type. }
  assert (onParsed ev st = st) as Hon.
  { rewrite (onParsed_supervisor ev st st) by done. unfold afterAggregate.
    rewrite updateAgentFromMessage_inert
      by (destruct Hty as [H|[H|[H|H]]]; by by_type).
    destruct Hty as [H|[H|[H|H]]]; by by_type. }
  rewrite Hon. repeat split; try done.
  unfold template. destruct Hty as [H|[H|[H|H]]]; by by_type.
Qed.

Lemma C8_decomposition_is_dropped :
  aggregate (event "decomposition" "supervisor" "主管" "plan") started_run
    = Some started_run
  ∧ onParsed (event "decomposition" "supervisor" "主管" "plan") started_run
    = started_run
  ∧ messages (onParsed (event "decomposition" "supervisor" "主管" "plan") started_run)
    = messages started_run
  ∧ heap (onParsed (event "decomposition" "supervisor" "主管" "plan") started_run)
    = heap started_run
  ∧ currentMainMessageIndex
      (onParsed (event "decomposition" "supervisor" "主管" "plan") started_run)
    = currentMainMessageIndex started_run
  ∧ is_Some (template (event "decomposition" "supervisor" "主管" "plan")).
Proof.
  apply (C8_displayed_kinds_not_recorded
           (event "decomposition" "supervisor" "主管" "plan") started_run).
  - reflexivity.
  - left. reflexivity.
Defined.

(** C6.  A line whose payload, the text after the prefix, trimmed, does
    not end in a closing brace is dropped whatever [JSON.parse] would
    make of it: the state after the line is the state before it, so
    the transcript and the agents are untouched. *)
Theorem C6_incomplete_payload_dropped
    (JSON_parse : string → option Message) (line : string) (st : App) :
  endsWith (trim (slice 6 line)) "}" = false →
  processLine JSON_parse line st = st.
Proof.
  intros Hend. unfold processLine. rewrite Hend. cbn.
  by destruct (_ && _).
Qed.

Lemma C6_truncated_status_line :
  processLine (λ _, Some (event "status" "supervisor" "主管" "working"))
    ("data: " +:+ Sample.json
       "{'type':'status','node':'supervisor','agent':'主管','message':'work")
    started_run
  = started_run.
Proof.
  apply (C6_incomplete_payload_dropped
           (λ _, Some (event "status" "supervisor" "主管" "working"))).
  reflexivity.
Defined.

(** ** The agent activity tracker: C4, C5 and C9 *)

Lemma find_agent_mutate (n s : string) (act : bool) (team : list Agent) (a : Agent) :
  find_agent n team = Some a →
  find_agent n (mutate_agent n s act team)
    = Some (mkAgent (name a) (avatar a) s act (role a) (layer a)).
Proof.
  unfold find_agent. induction team as [|b team IH]; [done|].
  cbn. destruct (bool_decide (name b = n)) eqn:Hb; cbn.
  - intros [= ->]. by rewrite Hb.
  - intros Ha. rewrite Hb. by apply IH.
Qed.

Lemma find_agent_all (n s : string) (act : bool) (team : list Agent) (a : Agent) :
  find_agent n team = Some a →
  find_agent n ((λ b, mkAgent (name b) (avatar b) s act (role b) (layer b)) <$> team)
    = Some (mkAgent (name a) (avatar a) s act (role a) (layer a)).
Proof.
  unfold find_agent. induction team as [|b team IH]; [done|].
  cbn. destruct (bool_decide (name b = n)) eqn:Hb; cbn.
  - by intros [= ->].
  - done.
Qed.

Lemma updateAgentStatus_idle (st : App) :
  Forall (λ a, status a = "idle" ∧ active a = false)
         (agentTeam (updateAgentStatus "idle" st)).
Proof.
  cbn. apply Forall_fmap, Forall_forall. intros a _. by cbn.
Qed.

(** What [afterAggregate] does to the agents depends on the kind and the
    agent name of the event and on the agents only. *)
Lemma afterAggregate_agents (ev1 ev2 : Message) (st1 st2 : App) :
  type ev1 = type ev2 → agent ev1 = agent ev2 →
  agentTeam st1 = agentTeam st2 → currentActiveAgent st1 = currentActiveAgent st2 →
  agentTeam (afterAggregate ev1 st1) = agentTeam (afterAggregate ev2 st2)
  ∧ currentActiveAgent (afterAggregate ev1 st1)
    = currentActiveAgent (afterAggregate ev2 st2).
Proof.
  intros Hty Hag Ht Ha.
  unfold afterAggregate, updateAgentFromMessage, is_type.
  rewrite Hty, Hag, Ht.
  repeat match goal with
         | |- context [match ?x with _ => _ end] => destruct x
         end; cbn; by rewrite ?Ht, ?Ha.
Qed.

Lemma onParsed_agents (ev : Message) (st : App) :
  (node ev = Some "supervisor" → is_Some (aggregate ev st)) →
  agentTeam (onParsed ev st) = agentTeam (afterAggregate ev st)
  ∧ currentActiveAgent (onParsed ev st) = currentActiveAgent (afterAggregate ev st).
Proof.
  intros Hok. destruct (decide (node ev = Some "supervisor")) as [Hn|Hn].
  - destruct (Hok Hn) as [st1 Hagg].
    rewrite (onParsed_supervisor ev st st1) by done.
    apply aggregate_frame in Hagg as (Ht & Ha & _).
    by apply afterAggregate_agents.
  - by rewrite onParsed_other_node.
Qed.

(** An end event never raises, and the reset that follows it leaves every
    agent idle and the main slot closed. *)
Lemma onParsed_end (ev : Message) (st : App) :
  type ev = Some "end" →
  Forall (λ a, status a = "idle" ∧ active a = false) (agentTeam (onParsed ev st))
  ∧ currentMainMessageIndex (onParsed ev st) = (-1)%Z
  ∧ loading (onParsed ev st) = false.
Proof.
  intros Hty.
  assert (∀ st1, Forall (λ a, status a = "idle" ∧ active a = false)
                        (agentTeam (afterAggregate ev st1))
                 ∧ currentMainMessageIndex (afterAggregate ev st1) = (-1)%Z
                 ∧ loading (afterAggregate ev st1) = false) as Hafter.
  { intros st1. unfold afterAggregate. by_type.
    split; [apply updateAgentStatus_idle|done]. }
  destruct (decide (node ev = Some "supervisor")) as [Hn|Hn].
  - rewrite (onParsed_supervisor ev st (push ev st)); [apply Hafter|done|].
    unfold aggregate. by by_type.
  - rewrite onParsed_other_node by done. apply Hafter.
Qed.


(** With a known agent name, the branch of the known agent is taken, it
    has no case for the end kind, and the indicator stays. *)
Lemma onParsed_end_known_agent (ev : Message) (st : App) (a : Agent) :
  type ev = Some "end" →
  find_agent (or_default (agent ev) "系统") (agentTeam st) = Some a →
  currentActiveAgent (onParsed ev st) = currentActiveAgent st.
Proof.
  intros Hty Hfind.
  destruct (onParsed_agents ev st) as (_ & ->).
  { intros _. exists (push ev st). unfold aggregate. by by_type. }
  unfold afterAggregate, updateAgentFromMessage. rewrite Hfind. by by_type.
Qed.

(** C4.  The code at an end event that names a known agent: a status
    event of the agent 主管 made it the active agent, and after the end
    event with the same agent name every agent is idle and the main
    slot is closed, but the active-agent indicator still names 主管.
    The same end event with the agent name 系统, which is not in the
    team, clears the indicator. *)
Theorem C4_end_known_agent_keeps_indicator :
  let st := onParsed (event "status" "supervisor" "主管" "s") started_run in
  currentActiveAgent st = "主管"
  ∧ Forall (λ a, status a = "idle" ∧ active a = false)
           (agentTeam (onParsed (event "end" "supervisor" "主管" "bye") st))
  ∧ currentMainMessageIndex (onParsed (event "end" "supervisor" "主管" "bye") st)
    = (-1)%Z
  ∧ currentActiveAgent (onParsed (event "end" "supervisor" "主管" "bye") st) = "主管"
  ∧ currentActiveAgent (onParsed (event "end" "supervisor" "系统" "bye") st) = "".
Proof.
  cbv zeta. split; [reflexivity|].
  split; [by apply onParsed_end|]. split; [by apply onParsed_end|].
  split; reflexivity.
Qed.

(** The rows of the tracker and of the reset, for an event that names a
    known agent, on the state that the transcript update leaves. *)
Lemma afterAggregate_rows (ev : Message) (st : App) (a : Agent) :
  find_agent (or_default (agent ev) "系统") (agentTeam st) = Some a →
  (type ev = Some "status" →
     find_agent (or_default (agent ev) "系统") (agentTeam (afterAggregate ev st))
       = Some (mkAgent (name a) (avatar a) "active" true (role a) (layer a))
     ∧ currentActiveAgent (afterAggregate ev st) = or_default (agent ev) "系统")
  ∧ (type ev = Some "result" →
     find_agent (or_default (agent ev) "系统") (agentTeam (afterAggregate ev st))
       = Some (mkAgent (name a) (avatar a) "completed" false (role a) (layer a))
     ∧ currentActiveAgent (afterAggregate ev st) = currentActiveAgent st)
  ∧ (type ev = Some "error" →
     find_agent (or_default (agent ev) "系统") (agentTeam (afterAggregate ev st))
       = Some (mkAgent (name a) (avatar a) "idle" false (role a) (layer a))
     ∧ currentActiveAgent (afterAggregate ev st) = "")
  ∧ (type ev = Some "final" →
     find_agent (or_default (agent ev) "系统") (agentTeam (afterAggregate ev st))
       = Some (mkAgent (name a) (avatar a) "idle" false (role a) (layer a))
     ∧ currentActiveAgent (afterAggregate ev st) = "").
Proof.
  intros Hfind.
  split; [|split; [|split]]; intros Hty;
    unfold afterAggregate, updateAgentFromMessage; rewrite Hfind; by_type;
    unfold updateAgentStatus, set_currentMainMessageIndex, set_loading,
      set_currentActiveAgent, set_agentTeam;
    cbn [agentTeam currentActiveAgent].
  - by rewrite (find_agent_mutate _ _ _ _ a).
  - by rewrite (find_agent_mutate _ _ _ _ a).
  - by rewrite (find_agent_mutate _ _ _ _ a).
  - split; [|done].
    by rewrite (find_agent_all _ _ _ _
                  (mkAgent (name a) (avatar a) "completed" false (role a) (layer a)))
      by (by apply find_agent_mutate).
Qed.

Lemma onParsed_raise_unchanged (ev : Message) (st : App) :
  node ev = Some "supervisor" → aggregate ev st = None → onParsed ev st = st.
Proof.
  intros Hn Hagg. unfold onParsed. by rewrite (bool_decide_eq_true_2 _ Hn), Hagg.
Qed.

(** C5, as the code has it.  For an event whose agent name is that of a
    known agent.  On a final event [updateAgentFromMessage] marks the
    agent completed and clears the indicator.  Where the handling of the
    event does not raise: after a result event the agent is completed
    and the indicator is what it was; after a final event the reset
    that ends its handling has set every agent to idle, this one too,
    so that the agent is idle and the indicator is empty.  Where the
    handling raises, which only the merge of a supervisor-node event
    can do, the event is lost whole and the state is what it was. *)
Theorem C5_result_completes_final_resets (ev : Message) (st : App) (a : Agent) :
  find_agent (or_default (agent ev) "系统") (agentTeam st) = Some a →
  (type ev = Some "final" →
     agent_status (or_default (agent ev) "系统") (updateAgentFromMessage ev st)
       = Some "completed"
     ∧ currentActiveAgent (updateAgentFromMessage ev st) = "")
  ∧ ((node ev = Some "supervisor" → is_Some (aggregate ev st)) →
     (type ev = Some "result" →
        agent_status (or_default (agent ev) "系统") (onParsed ev st) = Some "completed"
        ∧ currentActiveAgent (onParsed ev st) = currentActiveAgent st)
     ∧ (type ev = Some "final" →
        agent_status (or_default (agent ev) "系统") (onParsed ev st) = Some "idle"
        ∧ currentActiveAgent (onParsed ev st) = ""))
  ∧ (node ev = Some "supervisor" → aggregate ev st = None → onParsed ev st = st).
Proof.
  intros Hfind. split; [|split].
  - intros Hty. unfold agent_status, updateAgentFromMessage. rewrite Hfind. by_type.
    unfold set_currentActiveAgent, set_agentTeam. cbn [agentTeam currentActiveAgent].
    by rewrite (find_agent_mutate _ _ _ _ a).
  - intros Hok. unfold agent_status.
    destruct (onParsed_agents ev st Hok) as (-> & ->).
    destruct (afterAggregate_rows ev st a Hfind) as (_ & Hresult & _ & Hfinal).
    split; intros Hty.
    + destruct (Hresult Hty) as [-> ->]. done.
    + destruct (Hfinal Hty) as [-> ->]. done.
  - apply onParsed_raise_unchanged.
Qed.

Lemma C5_result_and_final_of_supervisor :
  (agent_status "主管" (onParsed (event "final" "supervisor" "主管" "done")
                          (onParsed (event "status" "supervisor" "主管" "s") started_run))
     = Some "idle")
  ∧ (agent_status "主管" (onParsed (event "result" "team" "主管" "r")
                            (onParsed (event "status" "supervisor" "主管" "s") started_run))
     = Some "completed").
Proof.
  split.
  - destruct (C5_result_completes_final_resets
                (event "final" "supervisor" "主管" "done")
                (onParsed (event "status" "supervisor" "主管" "s") started_run)
                (mkAgent "主管" "👨‍💼" "active" true "supervisor" 1)
                eq_refl) as (_ & Hdone & _).
    destruct (Hdone (λ _, ex_intro _ _ eq_refl)) as [_ Hfinal].
    apply (Hfinal eq_refl).
  - destruct (C5_result_completes_final_resets
                (event "result" "team" "主管" "r")
                (onParsed (event "status" "supervisor" "主管" "s") started_run)
                (mkAgent "主管" "👨‍💼" "active" true "supervisor" 1)
                eq_refl) as (_ & Hdone & _).
    destruct Hdone as [Hresult _].
    + intros Hn. discriminate Hn.
    + apply (Hresult eq_refl).
Defined.

(** C5 as stated fails on a final event: the known agent 主管 is idle,
    not completed, once the event is fully processed. *)
Lemma C5_final_leaves_agent_idle :
  let ev := event "final" "supervisor" "主管" "done" in
  let st := started_run in
  type ev = Some "final"
  ∧ is_Some (find_agent (or_default (agent ev) "系统") (agentTeam st))
  ∧ agent_status "主管" (onParsed ev st) = Some "idle"
  ∧ agent_status "主管" (onParsed ev st) ≠ Some "completed".
Proof.
  cbv zeta. split; [reflexivity|]. split; [by eexists|].
  split; [reflexivity|]. vm_compute. discriminate.
Qed.




(** ** Overlapping runs: C3 *)

Lemma entries_ext (st st' : App) :
  heap st' = heap st → messages st' = messages st → entries st' = entries st.
Proof. unfold entries. by intros -> ->. Qed.

Lemma entries_handleSubmit (task now : string) (st0 : App) :
  entries (handleSubmit task now st0) = [userMessage task now].
Proof.
  rewrite handleSubmit_state. unfold entries. cbn.
  by rewrite lookup_app_r, Nat.sub_diag.
Qed.

Lemma entries_open_after_submit (task now : string) (st0 : App) (ev : Message) :
  entries (open_main ev (handleSubmit task now st0)) = [userMessage task now; ev].
Proof.
  rewrite handleSubmit_state. unfold entries. cbn.
  rewrite <- app_assoc. cbn.
  rewrite lookup_app_r, Nat.sub_diag by done. cbn.
  rewrite length_app. cbn.
  rewrite lookup_app_r by lia.
  by replace (length (heap st0) + 1 - length (heap st0)) with 1 by lia.
Qed.

(** C3, as the code has it.  A submission replaces the transcript by one
    that holds the new user entry only, closes the main slot and starts
    a further run; nothing of the earlier transcript is carried over.
    The code has no run id and does not stop the earlier readers: an
    event that any started run delivers afterwards, an earlier run as
    well as the new one, is handled by [onParsed] on the new state, so
    an earlier run's supervisor event of a mergeable kind is appended to
    the new transcript. *)
Theorem C3_submit_clears_but_stale_events_land
    (sys : System) (task now : string) (r : nat) (ev : Message) :
  r ≤ started sys →
  entries (app (step (Submit task now) sys)) = [userMessage task now]
  ∧ currentMainMessageIndex (app (step (Submit task now) sys)) = (-1)%Z
  ∧ started (step (Submit task now) sys) = S (started sys)
  ∧ app (step (Deliver r ev) (step (Submit task now) sys))
    = onParsed ev (app (step (Submit task now) sys))
  ∧ (mergeable ev → node ev = Some "supervisor" →
     entries (app (step (Deliver r ev) (step (Submit task now) sys)))
     = [userMessage task now; ev]).
Proof.
  intros Hr. cbn [step app started].
  rewrite bool_decide_eq_true_2 by lia. cbn [app].
  split; [apply entries_handleSubmit|]. split; [done|]. split; [done|].
  split; [done|]. intros Hm Hn.
  rewrite (onParsed_supervisor ev _ (open_main ev (handleSubmit task now (app sys))))
    by (done || by apply aggregate_mergeable_closed).
  destruct (afterAggregate_frame ev (open_main ev (handleSubmit task now (app sys))))
    as (Hh & Hms & _).
  rewrite (entries_ext _ _ Hh Hms). apply entries_open_after_submit.
Qed.

Lemma C3_second_submission :
  let sys := run [Submit "first" "2026-01-01T00:00:00.000Z";
                  Deliver 0 (event "thinking" "supervisor" "A" "old 1")] boot in
  let ev := event "thinking" "supervisor" "A" "old 2" in
  entries (app (step (Submit "second" "2026-01-01T00:01:00.000Z") sys))
    = [userMessage "second" "2026-01-01T00:01:00.000Z"]
  ∧ currentMainMessageIndex
      (app (step (Submit "second" "2026-01-01T00:01:00.000Z") sys)) = (-1)%Z
  ∧ started (step (Submit "second" "2026-01-01T00:01:00.000Z") sys) = S (started sys)
  ∧ app (step (Deliver 0 ev) (step (Submit "second" "2026-01-01T00:01:00.000Z") sys))
    = onParsed ev (app (step (Submit "second" "2026-01-01T00:01:00.000Z") sys))
  ∧ (mergeable ev → node ev = Some "supervisor" →
     entries (app (step (Deliver 0 ev)
                     (step (Submit "second" "2026-01-01T00:01:00.000Z") sys)))
     = [userMessage "second" "2026-01-01T00:01:00.000Z"; ev]).
Proof.
  cbv zeta.
  apply (C3_submit_clears_but_stale_events_land
           (run [Submit "first" "2026-01-01T00:00:00.000Z";
                 Deliver 0 (event "thinking" "supervisor" "A" "old 1")] boot)
           "second" "2026-01-01T00:01:00.000Z" 0
           (event "thinking" "supervisor" "A" "old 2")).
  cbn. lia.
Defined.

(** C3 as stated fails.  Run 0 has delivered its final event, which
    ends [loading] and so enables the input again, while its reader is
    still in the read loop.  Run 1 is submitted, and the end event that
    run 0 delivers next is not discarded: it is appended to the
    transcript of run 1, and it ends [loading] for run 1. *)
Lemma C3_old_run_text_leaks :
  let before := run [Submit "first" "2026-01-01T00:00:00.000Z";
                     Deliver 0 (event "thinking" "supervisor" "A" "old 1");
                     Deliver 0 (event "final" "supervisor" "A" "old 2")] boot in
  let sys := step (Submit "second" "2026-01-01T00:01:00.000Z") before in
  let stale := Deliver 0 (event "end" "supervisor" "系统" "old 3") in
  loading (app before) = false
  ∧ started sys = 2
  ∧ loading (app sys) = true
  ∧ step stale sys ≠ sys
  ∧ message <$> entries (app (step stale sys)) = [Some "second"; Some "old 3"]
  ∧ loading (app (step stale sys)) = false.
Proof.
  cbv zeta. split; [reflexivity|]. split; [reflexivity|]. split; [reflexivity|].
  split; [|split; reflexivity].
  intros Heq. apply (f_equal (λ s, length (messages (app s)))) in Heq.
  vm_compute in Heq. discriminate Heq.
Qed.

(** * Further properties of the code *)

(** ** Splitting into lines *)

Lemma split_nl_cons_nl (s : string) :
  split_nl (String "010"%char s) = "" :: split_nl s.
Proof. done. Qed.

Lemma split_nl_cons_other (a : ascii) (s : string) :
  a ≠ "010"%char →
  split_nl (String a s) =
    match split_nl s with
    | h :: t => String a h :: t
    | [] => [String a ""]
    end.
Proof. intros Ha. cbn [split_nl]. by rewrite decide_False. Qed.

Lemma split_nl_nonempty (s : string) : split_nl s ≠ [].
Proof.
  induction s as [|a s IH]; [done|].
  destruct (decide (a = "010"%char)) as [->|Ha]; [done|].
  rewrite split_nl_cons_other by done. by destruct (split_nl s).
Qed.

Lemma or_default_empty (s : string) : or_default (Some s) "" = s.
Proof. unfold or_default. by destruct (decide (s = "")) as [->|]. Qed.

Lemma carry_over_last (s : string) : last (split_nl s) = Some (carry_over s).
Proof.
  unfold carry_over. destruct (last (split_nl s)) as [r|] eqn:Hr.
  - by rewrite or_default_empty.
  - apply last_None in Hr. by apply split_nl_nonempty in Hr.
Qed.

Lemma removelast_snoc_last {A} (l : list A) (x : A) :
  last l = Some x → l = removelast l ++ [x].
Proof.
  induction l as [|y [|z l] IH]; [done|by intros [= ->]|].
  intros Hl. change (y :: z :: l = y :: (removelast (z :: l) ++ [x])).
  f_equal. by apply IH.
Qed.

Lemma split_nl_parts (s : string) :
  split_nl s = complete_lines s ++ [carry_over s].
Proof. apply removelast_snoc_last, carry_over_last. Qed.

Lemma complete_lines_cons_nl (s : string) :
  complete_lines (String "010"%char s) = "" :: complete_lines s
  ∧ carry_over (String "010"%char s) = carry_over s.
Proof.
  pose proof (split_nl_parts (String "010"%char s)) as H1.
  rewrite split_nl_cons_nl, (split_nl_parts s) in H1.
  change ("" :: complete_lines s ++ [carry_over s])
    with (("" :: complete_lines s) ++ [carry_over s]) in H1.
  apply app_inj_tail in H1 as [? ?]. by split.
Qed.

(** The lines of a buffer that continues: the complete lines so far,
    then the lines of the carry-over with the continuation. *)
Lemma split_nl_append (a b : string) :
  split_nl (a +:+ b) = complete_lines a ++ split_nl (carry_over a +:+ b).
Proof.
  induction a as [|c a IH]; [done|].
  rewrite append_cons.
  destruct (decide (c = "010"%char)) as [->|Hc].
  - destruct (complete_lines_cons_nl a) as [-> ->].
    by rewrite split_nl_cons_nl, IH.
  - rewrite (split_nl_cons_other c (a +:+ b)) by done. rewrite IH.
    pose proof (split_nl_parts (String c a)) as Hparts.
    rewrite split_nl_cons_other, (split_nl_parts a) in Hparts by done.
    destruct (complete_lines a) as [|h t] eqn:Hca.
    + change ([] ++ [String c (carry_over a)]
              = complete_lines (String c a) ++ [carry_over (String c a)]) in Hparts.
      apply app_inj_tail in Hparts as [<- <-].
      cbn [app]. by rewrite append_cons, split_nl_cons_other.
    + change ((String c h :: t) ++ [carry_over a]
              = complete_lines (String c a) ++ [carry_over (String c a)]) in Hparts.
      apply app_inj_tail in Hparts as [<- <-]. done.
Qed.

Lemma complete_lines_append (a b : string) :
  complete_lines (a +:+ b) = complete_lines a ++ complete_lines (carry_over a +:+ b)
  ∧ carry_over (a +:+ b) = carry_over (carry_over a +:+ b).
Proof.
  pose proof (split_nl_parts (a +:+ b)) as H1.
  rewrite split_nl_append, (split_nl_parts (carry_over a +:+ b)), app_assoc in H1.
  symmetry in H1. apply app_inj_tail in H1 as [? ?]. by split.
Qed.

Lemma carry_over_no_line_feed (s : string) : no_line_feed (carry_over s).
Proof.
  pose proof (split_nl_append s "") as H.
  rewrite !append_nil_r, (split_nl_parts s) in H.
  apply app_inv_head in H. unfold no_line_feed. by rewrite <- H.
Qed.

Lemma no_line_feed_cons (c : ascii) (s : string) :
  no_line_feed (String c s) → c ≠ "010"%char ∧ no_line_feed s.
Proof.
  unfold no_line_feed. intros H.
  destruct (decide (c = "010"%char)) as [->|Hc].
  - rewrite split_nl_cons_nl in H. discriminate H.
  - split; [done|]. rewrite split_nl_cons_other in H by done.
    pose proof (split_nl_nonempty s) as Hne.
    destruct (split_nl s) as [|h t]; [done|]. by injection H as -> ->.
Qed.

Lemma no_line_feed_append (a b : string) :
  no_line_feed a → no_line_feed b → no_line_feed (a +:+ b).
Proof.
  unfold no_line_feed. induction a as [|c a IH]; intros Ha Hb; [done|].
  apply no_line_feed_cons in Ha as [Hc Ha].
  rewrite append_cons, split_nl_cons_other by done.
  by rewrite (IH Ha Hb).
Qed.

Lemma concat_nl_cons_head (c : ascii) (h : string) (t : list string) :
  String.concat nl (String c h :: t) = String c (String.concat nl (h :: t)).
Proof. by destruct t. Qed.

(** The read loop and its chunks. *)

Lemma readChunk_unfold (JSON_parse : string → option Message)
    (chunk buffer : string) (st : App) :
  readChunk JSON_parse chunk (buffer, st) =
    (carry_over (buffer +:+ chunk),
     processLines JSON_parse (complete_lines (buffer +:+ chunk)) st).
Proof. done. Qed.

Lemma processLines_app (JSON_parse : string → option Message)
    (l1 l2 : list string) (st : App) :
  processLines JSON_parse (l1 ++ l2) st
  = processLines JSON_parse l2 (processLines JSON_parse l1 st).
Proof. apply foldl_app. Qed.

Lemma readChunk_append (JSON_parse : string → option Message)
    (c1 c2 : string) (rd : string * App) :
  readChunk JSON_parse c2 (readChunk JSON_parse c1 rd)
  = readChunk JSON_parse (c1 +:+ c2) rd.
Proof.
  destruct rd as [b st]. rewrite !readChunk_unfold.
  destruct (complete_lines_append (b +:+ c1) c2) as [Hc Hr].
  by rewrite <- append_assoc, Hc, Hr, processLines_app.
Qed.

Lemma concat_empty_cons (x : string) (l : list string) :
  String.concat "" (x :: l) = x +:+ String.concat "" l.
Proof. destruct l; [by rewrite append_nil_r|done]. Qed.

Lemma readChunks_cons (JSON_parse : string → option Message) (cs : list string) :
  ∀ (c : string) (rd : string * App),
    readChunks JSON_parse (c :: cs) rd
    = readChunk JSON_parse (c +:+ String.concat "" cs) rd.
Proof.
  induction cs as [|c' cs IH]; intros c rd.
  - by rewrite append_nil_r.
  - change (readChunks JSON_parse (c :: c' :: cs) rd)
      with (readChunks JSON_parse (c' :: cs) (readChunk JSON_parse c rd)).
    by rewrite IH, readChunk_append, concat_empty_cons.
Qed.

Lemma readChunks_concat
    (JSON_parse : string → option Message) (chunks : list string) (st : App) :
  readChunks JSON_parse chunks ("", st)
  = readChunk JSON_parse (String.concat "" chunks) ("", st).
Proof.
  destruct chunks as [|c cs]; [done|].
  by rewrite readChunks_cons, concat_empty_cons.
Qed.

(** X1.  How the transport cuts the stream into chunks does not matter:
    reading the chunks one after the other, from an empty buffer, leaves
    the state and the carry-over that reading their concatenation as one
    chunk leaves; and two chunks read in turn are read as their
    concatenation, whatever the buffer holds. *)
Theorem X1_chunking_does_not_matter
    (JSON_parse : string → option Message) (chunks : list string)
    (c1 c2 : string) (rd : string * App) (st : App) :
  readChunks JSON_parse chunks ("", st)
  = readChunk JSON_parse (String.concat "" chunks) ("", st)
  ∧ readChunk JSON_parse c2 (readChunk JSON_parse c1 rd)
    = readChunk JSON_parse (c1 +:+ c2) rd.
Proof. split; [apply readChunks_concat|apply readChunk_append]. Qed.

(** X2.  What follows the last line feed of the stream is never handled:
    a last chunk without a line feed changes the carry-over only, and
    the loop ends without looking at the carry-over. *)
Theorem X2_unterminated_tail_is_dropped
    (JSON_parse : string → option Message) (chunks : list string)
    (tail : string) (st : App) :
  no_line_feed tail →
  (readChunks JSON_parse (chunks ++ [tail]) ("", st)).2
  = (readChunks JSON_parse chunks ("", st)).2.
Proof.
  intros Htail. unfold readChunks at 1. rewrite foldl_app.
  fold (readChunks JSON_parse chunks ("", st)).
  rewrite (readChunks_concat JSON_parse chunks st), readChunk_unfold.
  cbn [foldl]. rewrite readChunk_unfold. cbn [snd].
  assert (complete_lines (carry_over ("" +:+ String.concat "" chunks) +:+ tail) = [])
    as ->; [|done].
  unfold complete_lines.
  by rewrite (no_line_feed_append _ _ (carry_over_no_line_feed _) Htail).
Qed.

Lemma X2_final_event_without_line_feed :
  (readChunks Sample.parse
     (["data: " +:+ Sample.json "{'type':'thinking','node':'supervisor','message':'x'}"
       +:+ nl]
      ++ ["data: " +:+ Sample.json "{'type':'end','node':'supervisor','message':'bye'}"])
     ("", started_run)).2
  = (readChunks Sample.parse
       ["data: " +:+ Sample.json "{'type':'thinking','node':'supervisor','message':'x'}"
        +:+ nl]
       ("", started_run)).2.
Proof.
  apply (X2_unterminated_tail_is_dropped Sample.parse).
  reflexivity.
Defined.

(** X3.  Splitting loses nothing: the complete lines and the carry-over,
    joined by line feeds, are the buffer, and neither a complete line
    nor the carry-over holds a line feed. *)
Theorem X3_lines_and_carry_over_rebuild_buffer (buffer : string) :
  String.concat nl (complete_lines buffer ++ [carry_over buffer]) = buffer
  ∧ Forall no_line_feed (complete_lines buffer ++ [carry_over buffer]).
Proof.
  rewrite <- split_nl_parts. split.
  - induction buffer as [|c s IH]; [done|].
    destruct (decide (c = "010"%char)) as [->|Hc].
    + rewrite split_nl_cons_nl.
      pose proof (split_nl_nonempty s) as Hne.
      destruct (split_nl s) as [|h t] eqn:Hs; [done|].
      change (String.concat nl ("" :: h :: t))
        with ("" +:+ nl +:+ String.concat nl (h :: t)).
      by rewrite IH.
    + rewrite split_nl_cons_other by done.
      pose proof (split_nl_nonempty s) as Hne.
      destruct (split_nl s) as [|h t] eqn:Hs; [done|].
      by rewrite concat_nl_cons_head, IH.
  - induction buffer as [|c s IH]; [by repeat constructor|].
    destruct (decide (c = "010"%char)) as [->|Hc].
    + rewrite split_nl_cons_nl. by constructor.
    + rewrite split_nl_cons_other by done.
      pose proof (split_nl_nonempty s) as Hne.
      destruct (split_nl s) as [|h t] eqn:Hs; [done|].
      apply Forall_cons in IH as [Hh Ht]. constructor; [|done].
      unfold no_line_feed in *. by rewrite split_nl_cons_other, Hh.
Qed.

Lemma processLine_decodeLine (JSON_parse : string → option Message)
    (line : string) (st : App) :
  processLine JSON_parse line st =
    match decodeLine JSON_parse line with
    | Some ev => onParsed ev st
    | None => st
    end.
Proof.
  unfold processLine, decodeLine.
  destruct (_ && _); [|done]. by destruct (negb _).
Qed.

Lemma processLines_decodeLine (JSON_parse : string → option Message)
    (lines : list string) :
  ∀ st : App,
    processLines JSON_parse lines st
    = onParsedAll (omap (decodeLine JSON_parse) lines) st.
Proof.
  induction lines as [|line lines IH]; intros st; [done|].
  change (processLines JSON_parse (line :: lines) st)
    with (processLines JSON_parse lines (processLine JSON_parse line st)).
  rewrite processLine_decodeLine, IH. cbn [omap list_omap].
  by destruct (decodeLine JSON_parse line).
Qed.

(** X4.  The read loop is the decoder followed by the handler: the state
    after a stream is the state after handling, in order, the events
    that the lines before the last line feed decode to; what a line
    decodes to does not depend on the state. *)
Theorem X4_stream_is_decode_then_handle
    (JSON_parse : string → option Message) (chunks : list string) (st : App) :
  (readChunks JSON_parse chunks ("", st)).2
  = onParsedAll
      (omap (decodeLine JSON_parse) (complete_lines (String.concat "" chunks))) st.
Proof.
  rewrite readChunks_concat, readChunk_unfold. cbn [snd].
  apply processLines_decodeLine.
Qed.

(** ** The outcomes of the aggregator *)

Lemma merge_main_cases (sep text : string) (st st' : App) :
  merge_main sep text st = Some st' →
  st' = st
  ∨ ∃ (i : nat) (l : loc) (cur : Message) (text' : string),
      currentMainMessageIndex st = Z.of_nat i
      ∧ messages st !! i = Some l ∧ heap st !! l = Some cur
      ∧ st' = merged st i (spread_message cur text').
Proof.
  unfold merge_main.
  destruct (at_index (messages st) (currentMainMessageIndex st)) as [l|] eqn:Hl.
  2: { intros [= <-]. by left. }
  destruct (heap st !! l) as [cur|] eqn:Hcur.
  2: { intros [= <-]. by left. }
  destruct (message cur) as [m|] eqn:Hm; [|done].
  cbn. intros [= <-]. right.
  apply at_index_Some in Hl as (i & Hi & Hl).
  exists i, l, cur. eexists. split; [done|]. split; [done|]. split; [done|].
  unfold merged. rewrite Hi, Nat2Z.id.
  rewrite splice1_insert by (by eapply lookup_lt_Some). done.
Qed.

Lemma is_type_true (ev : Message) (k : string) :
  is_type ev k = true → type ev = Some k.
Proof. unfold is_type. by intros H%bool_decide_eq_true. Qed.

Lemma aggregate_cases (ev : Message) (st st' : App) :
  aggregate ev st = Some st' →
  st' = st
  ∨ (mergeable ev ∧ currentMainMessageIndex st = (-1)%Z ∧ st' = open_main ev st)
  ∨ (∃ (i : nat) (l : loc) (cur : Message) (text : string),
       currentMainMessageIndex st = Z.of_nat i
       ∧ messages st !! i = Some l ∧ heap st !! l = Some cur
       ∧ st' = merged st i (spread_message cur text))
  ∨ ((type ev = Some "connection" ∨ type ev = Some "end") ∧ st' = push ev st).
Proof.
  unfold aggregate. cbv zeta.
  destruct (bool_decide (currentMainMessageIndex st = (-1)%Z)) eqn:Hc.
  - apply bool_decide_eq_true in Hc. cbn [negb].
    destruct (is_type ev "thinking") eqn:H1.
    { intros [= <-]. right. left. apply is_type_true in H1.
      unfold mergeable. tauto. }
    destruct (is_type ev "result") eqn:H2.
    { cbn [orb]. intros [= <-]. right. left. apply is_type_true in H2.
      unfold mergeable. tauto. }
    destruct (is_type ev "final") eqn:H3.
    { cbn [orb]. intros [= <-]. right. left. apply is_type_true in H3.
      unfold mergeable. tauto. }
    cbn [orb]. destruct (is_type ev "error") eqn:H4.
    { intros [= <-]. right. left. apply is_type_true in H4.
      unfold mergeable. tauto. }
    destruct (is_type ev "status") eqn:H5.
    { intros [= <-]. right. left. apply is_type_true in H5.
      unfold mergeable. tauto. }
    destruct (is_type ev "connection") eqn:H6.
    { cbn [orb]. intros [= <-]. do 3 right. apply is_type_true in H6. tauto. }
    destruct (is_type ev "end") eqn:H7.
    { cbn [orb]. intros [= <-]. do 3 right. apply is_type_true in H7. tauto. }
    cbn [orb]. intros [= <-]. by left.
  - cbn [negb].
    assert (∀ sep text, merge_main sep text st = Some st' →
              st' = st
              ∨ (mergeable ev ∧ currentMainMessageIndex st = (-1)%Z
                 ∧ st' = open_main ev st)
              ∨ (∃ (i : nat) (l : loc) (cur : Message) (text : string),
                   currentMainMessageIndex st = Z.of_nat i
                   ∧ messages st !! i = Some l ∧ heap st !! l = Some cur
                   ∧ st' = merged st i (spread_message cur text))
              ∨ ((type ev = Some "connection" ∨ type ev = Some "end")
                 ∧ st' = push ev st)) as Hmerge.
    { intros sep text Hm. apply merge_main_cases in Hm as [->|Hm]; [by left|].
      right. right. by left. }
    destruct (is_type ev "thinking"); [apply Hmerge|].
    destruct (is_type ev "result" || is_type ev "final"); [apply Hmerge|].
    destruct (is_type ev "error"); [apply Hmerge|].
    destruct (is_type ev "status"); [apply Hmerge|].
    destruct (is_type ev "connection") eqn:H6.
    { cbn [orb]. intros [= <-]. do 3 right. apply is_type_true in H6. tauto. }
    destruct (is_type ev "end") eqn:H7.
    { cbn [orb]. intros [= <-]. do 3 right. apply is_type_true in H7. tauto. }
    cbn [orb]. intros [= <-]. by left.
Qed.

(** ** Well-formed states are kept *)

Lemma stored_kind_spread (cur : Message) (text : string) :
  stored_kind cur → stored_kind (spread_message cur text).
Proof. done. Qed.

Lemma well_formed_open_main (ev : Message) (st : App) :
  mergeable ev → well_formed st → well_formed (open_main ev st).
Proof.
  intros Hm (Hrefs & Hkinds & _).
  destruct (entry_open_main ev st) as (Hslot & _ & Hmsgs & Hheap).
  split; [|split].
  - rewrite Hmsgs, Hheap, length_app. cbn. apply Forall_app. split.
    + eapply Forall_impl; [exact Hrefs|]. cbn. lia.
    + constructor; [lia|constructor].
  - rewrite Hheap. apply Forall_app. split; [done|].
    constructor; [|constructor]. unfold stored_kind. tauto.
  - right. by exists ev.
Qed.

Lemma well_formed_merged (st : App) (i : nat) (l : loc) (cur : Message)
    (text : string) :
  well_formed st →
  currentMainMessageIndex st = Z.of_nat i →
  messages st !! i = Some l → heap st !! l = Some cur →
  well_formed (merged st i (spread_message cur text)).
Proof.
  intros (Hrefs & Hkinds & Hslot) Hi Hl Hcur.
  split; [|split]; cbn.
  - rewrite length_app. cbn. apply Forall_insert.
    + eapply Forall_impl; [exact Hrefs|]. cbn. lia.
    + lia.
  - apply Forall_app. split; [done|]. constructor; [|constructor].
    apply stored_kind_spread. by eapply Forall_lookup_1.
  - right. exists (spread_message cur text). split.
    + unfold main_slot. cbn [merged set_messages set_heap currentMainMessageIndex].
      rewrite Hi. by eapply entry_merged_at.
    + destruct Hslot as [Hc|(cur' & Hs' & Hm')]; [lia|].
      unfold main_slot in Hs'. rewrite Hi, entry_nat, Hl in Hs'. cbn in Hs'.
      assert (cur' = cur) as -> by congruence. done.
Qed.

Lemma entry_push_old (ev : Message) (st : App) (j : Z) (e : Message) :
  entry st j = Some e → entry (push ev st) j = Some e.
Proof.
  intros He. apply entry_Some in He as (k & l & -> & Hk & Hl).
  rewrite entry_nat. cbn. rewrite (lookup_app_l_Some _ _ _ _ Hk). cbn.
  by apply lookup_app_l_Some.
Qed.

Lemma well_formed_push (ev : Message) (st : App) :
  stored_kind ev → well_formed st → well_formed (push ev st).
Proof.
  intros Hk (Hrefs & Hkinds & Hslot). split; [|split]; cbn.
  - rewrite length_app. cbn. apply Forall_app. split.
    + eapply Forall_impl; [exact Hrefs|]. cbn. lia.
    + constructor; [lia|constructor].
  - apply Forall_app. split; [done|]. by constructor.
  - destruct Hslot as [Hc|(cur & Hs & Hm)]; [by left|].
    right. exists cur. split; [|done]. by apply entry_push_old.
Qed.

Lemma well_formed_close (st st' : App) :
  heap st' = heap st → messages st' = messages st →
  currentMainMessageIndex st' = currentMainMessageIndex st
  ∨ currentMainMessageIndex st' = (-1)%Z →
  well_formed st → well_formed st'.
Proof.
  intros Hh Hm Hi (Hrefs & Hkinds & Hslot).
  split; [by rewrite Hh, Hm|]. split; [by rewrite Hh|].
  destruct Hi as [Hi|Hi]; [|by left].
  destruct Hslot as [Hc|(cur & Hs & Hmg)]; [left; congruence|].
  right. exists cur. split; [|done].
  unfold main_slot, entry in *. by rewrite Hh, Hm, Hi.
Qed.

Lemma afterAggregate_index (ev : Message) (st1 : App) :
  currentMainMessageIndex (afterAggregate ev st1) = currentMainMessageIndex st1
  ∨ currentMainMessageIndex (afterAggregate ev st1) = (-1)%Z.
Proof.
  destruct (updateAgentFromMessage_frame ev st1) as (_ & _ & Hi & _).
  unfold afterAggregate. destruct (_ || _); [by right|by left].
Qed.

Lemma well_formed_aggregate (ev : Message) (st st' : App) :
  aggregate ev st = Some st' → well_formed st → well_formed st'.
Proof.
  intros Hagg Hwf.
  apply aggregate_cases in Hagg
    as [->|[(Hm & _ & ->)|[(i & l & cur & text & Hi & Hl & Hcur & ->)|(Hty & ->)]]].
  - done.
  - by apply well_formed_open_main.
  - by eapply well_formed_merged.
  - apply well_formed_push; [|done]. unfold stored_kind. tauto.
Qed.

Lemma well_formed_onParsed (ev : Message) (st : App) :
  well_formed st → well_formed (onParsed ev st).
Proof.
  intros Hwf. unfold onParsed.
  destruct (if bool_decide (node ev = Some "supervisor")
            then aggregate ev st else Some st) as [st1|] eqn:Hagg; [|done].
  assert (well_formed st1) as Hwf1.
  { destruct (bool_decide _); [by eapply well_formed_aggregate|].
    by injection Hagg as <-. }
  destruct (afterAggregate_frame ev st1) as (Hh & Hm & _).
  eapply well_formed_close; [done|done|apply afterAggregate_index|done].
Qed.

Lemma well_formed_handleSubmit (task now : string) (st : App) :
  well_formed st → well_formed (handleSubmit task now st).
Proof.
  intros (_ & Hkinds & _). rewrite handleSubmit_state.
  split; [|split]; cbn.
  - rewrite length_app. cbn. constructor; [lia|constructor].
  - apply Forall_app. split; [done|]. constructor; [|constructor]. by left.
  - by left.
Qed.

Lemma well_formed_onFault (msg : string) (st : App) :
  well_formed st → well_formed (onFault msg st).
Proof. apply well_formed_close; [done|done|by right]. Qed.

Lemma well_formed_step (a : Action) (sys : System) :
  well_formed (app sys) → well_formed (app (step a sys)).
Proof.
  intros Hwf. destruct a as [task now|r ev|r msg]; cbn [step].
  - by apply well_formed_handleSubmit.
  - destruct (bool_decide _); [|done]. by apply well_formed_onParsed.
  - destruct (bool_decide _); [|done]. by apply well_formed_onFault.
Qed.

Lemma well_formed_run (acts : list Action) :
  ∀ sys : System, well_formed (app sys) → well_formed (app (run acts sys)).
Proof.
  induction acts as [|a acts IH]; intros sys Hwf; [done|].
  apply IH. by apply well_formed_step.
Qed.

Lemma well_formed_boot : well_formed (app boot).
Proof. split; [constructor|]. split; [constructor|by left]. Qed.

Lemma entries_length (st : App) :
  Forall (λ l, l < length (heap st)) (messages st) →
  length (entries st) = length (messages st).
Proof.
  unfold entries. induction (messages st) as [|l ls IH]; [done|].
  intros Hrefs. apply Forall_cons in Hrefs as [Hl Hls]. cbn.
  destruct (lookup_lt_is_Some_2 _ _ Hl) as [o ->]. cbn. by rewrite IH.
Qed.

Lemma stored_kind_template (m : Message) : stored_kind m → is_Some (template m).
Proof.
  unfold template.
  intros [H|[[H|[H|[H|[H|H]]]]|[H|H]]]; by by_type.
Qed.

Lemma well_formed_initial : well_formed initial.
Proof. apply well_formed_boot. Qed.

Lemma well_formed_reachable (st : App) : reachable st → well_formed st.
Proof.
  induction 1 as [|task now st _ IH|ev st st1 _ IH Hn Hagg|ev st _ IH|msg st _ IH].
  - apply well_formed_initial.
  - by apply well_formed_handleSubmit.
  - by eapply well_formed_aggregate.
  - destruct (afterAggregate_frame ev st) as (Hh & Hm & _).
    eapply well_formed_close; [done|done|apply afterAggregate_index|done].
  - by apply well_formed_onFault.
Qed.

(** The states in which no handler is suspended between its two halves
    are among the reachable ones. *)
Lemma onParsed_reachable (ev : Message) (st : App) :
  reachable st → reachable (onParsed ev st).
Proof.
  intros Hst. unfold onParsed.
  destruct (bool_decide (node ev = Some "supervisor")) eqn:Hn.
  - apply bool_decide_eq_true in Hn.
    destruct (aggregate ev st) as [st1|] eqn:Hagg; [|done].
    apply reach_resume. by eapply reach_aggregate.
  - by apply reach_resume.
Qed.

Lemma run_reachable (acts : list Action) :
  ∀ sys : System, reachable (app sys) → reachable (app (run acts sys)).
Proof.
  induction acts as [|a acts IH]; intros sys Hsys; [done|].
  apply IH. destruct a as [task now|r ev|r msg]; cbn [step].
  - by apply reach_submit.
  - destruct (bool_decide _); [|done]. by apply onParsed_reachable.
  - destruct (bool_decide _); [|done]. by apply reach_fault.
Qed.

(** X5.  In every reachable state, the states between the transcript
    update of an event and its resumption after [await nextTick()]
    included, with the handlers of any number of readers interleaved:
    each reference of [messages] resolves to an entry, and the
    main-slot index is [-1] or the index of an existing entry whose
    kind is thinking, status, result, final or error.  So the guard
    on [currentMessage] never fails. *)
Theorem X5_main_slot_index_is_valid (st : App) :
  reachable st →
  length (entries st) = length (messages st)
  ∧ (currentMainMessageIndex st = (-1)%Z
     ∨ ∃ cur : Message,
         main_slot st cur ∧ mergeable cur
         ∧ (0 ≤ currentMainMessageIndex st < Z.of_nat (length (messages st)))%Z).
Proof.
  intros Hst. destruct (well_formed_reachable st Hst) as (Hrefs & _ & Hslot).
  split; [by apply entries_length|].
  destruct Hslot as [Hc|(cur & Hs & Hm)]; [by left|].
  right. exists cur. split; [done|]. split; [done|].
  apply entry_Some in Hs as (i & l & -> & Hi & _).
  apply lookup_lt_Some in Hi. lia.
Qed.

(** The state in which a final event has just opened the main slot and
    its handler waits for [nextTick]. *)
Lemma X5_slot_just_opened_by_a_final_event :
  length (entries (open_main (event "final" "supervisor" "A" "done") started_run))
  = length (messages (open_main (event "final" "supervisor" "A" "done") started_run))
  ∧ (currentMainMessageIndex
       (open_main (event "final" "supervisor" "A" "done") started_run) = (-1)%Z
     ∨ ∃ cur : Message,
         main_slot (open_main (event "final" "supervisor" "A" "done") started_run) cur
         ∧ mergeable cur
         ∧ (0 ≤ currentMainMessageIndex
                  (open_main (event "final" "supervisor" "A" "done") started_run)
            < Z.of_nat
                (length
                   (messages
                      (open_main (event "final" "supervisor" "A" "done")
                         started_run))))%Z).
Proof.
  apply (X5_main_slot_index_is_valid
           (open_main (event "final" "supervisor" "A" "done") started_run)).
  apply (reach_aggregate (event "final" "supervisor" "A" "done") started_run).
  - apply reach_submit, reach_initial.
  - reflexivity.
  - reflexivity.
Defined.

(** X6.  Every entry of the transcript of a reachable state, taken as
    for X5, is of one of the eight kinds user, thinking, status, result,
    final, error, connection and end, and so has a block in the
    template of [ChatDisplay.vue]: the component never stores an entry
    that would be rendered as an empty element. *)
Theorem X6_every_stored_entry_has_a_template (st : App) :
  reachable st →
  Forall (λ e, stored_kind e ∧ is_Some (template e)) (entries st).
Proof.
  intros Hst. destruct (well_formed_reachable st Hst) as (_ & Hkinds & _).
  apply Forall_forall. intros e He. unfold entries in He.
  apply list_elem_of_omap in He as (l & _ & Hl).
  assert (stored_kind e) as Hk by (by eapply Forall_lookup_1).
  split; [done|by apply stored_kind_template].
Qed.

Lemma X6_entries_between_two_readers :
  Forall (λ e, stored_kind e ∧ is_Some (template e))
    (entries
       (afterAggregate (event "final" "supervisor" "A" "done")
          (push (event "connection" "supervisor" "系统" "hi")
             (open_main (event "final" "supervisor" "A" "done") started_run)))).
Proof.
  apply X6_every_stored_entry_has_a_template.
  apply reach_resume.
  apply (reach_aggregate (event "connection" "supervisor" "系统" "hi")
           (open_main (event "final" "supervisor" "A" "done") started_run)).
  - apply (reach_aggregate (event "final" "supervisor" "A" "done") started_run).
    + apply reach_submit, reach_initial.
    + reflexivity.
    + reflexivity.
  - reflexivity.
  - reflexivity.
Defined.

(** ** What an event can do to the transcript *)

Lemma transcript_step_other (st st' : App) (j : Z) (e : Message) :
  transcript_step st st' → entry st j = Some e →
  j ≠ currentMainMessageIndex st → entry st' j = Some e.
Proof.
  intros Hstep He Hj. apply entry_Some in He as (k & l & -> & Hk & Hl).
  rewrite entry_nat.
  destruct Hstep as [Hh Hm|m Hh Hm|i l0 cur text Hi Hl0 Hcur Hh Hm]; rewrite Hh, Hm.
  - by rewrite Hk.
  - rewrite (lookup_app_l_Some _ _ _ _ Hk). cbn. by apply lookup_app_l_Some.
  - rewrite list_lookup_insert_ne, Hk by (intros ->; by rewrite Hi in Hj).
    cbn. by apply lookup_app_l_Some.
Qed.

Lemma transcript_step_length (st st' : App) :
  transcript_step st st' →
  length (messages st) ≤ length (messages st') ≤ S (length (messages st)).
Proof.
  intros [Hh Hm|m Hh Hm|i l0 cur text Hi Hl0 Hcur Hh Hm]; rewrite Hm.
  - lia.
  - rewrite length_app. cbn. lia.
  - rewrite length_insert. lia.
Qed.

(** X7.  A parsed event removes no entry and adds at most one, and the
    only entry whose content it can change is the one at the main-slot
    index: every other entry is after the event what it was before. *)
Theorem X7_only_the_main_slot_changes (ev : Message) (st : App) :
  length (messages st) ≤ length (messages (onParsed ev st)) ≤ S (length (messages st))
  ∧ ∀ (j : Z) (e : Message),
      entry st j = Some e → j ≠ currentMainMessageIndex st →
      entry (onParsed ev st) j = Some e.
Proof.
  split.
  - apply transcript_step_length, onParsed_step.
  - intros j e He Hj. eapply transcript_step_other; [apply onParsed_step|done..].
Qed.

Lemma onParsed_index_cases (ev : Message) (st : App) :
  currentMainMessageIndex (onParsed ev st) = currentMainMessageIndex st
  ∨ currentMainMessageIndex (onParsed ev st) = Z.of_nat (length (messages st))
  ∨ currentMainMessageIndex (onParsed ev st) = (-1)%Z.
Proof.
  unfold onParsed.
  destruct (if bool_decide (node ev = Some "supervisor")
            then aggregate ev st else Some st) as [st1|] eqn:Hagg; [|by left].
  assert (currentMainMessageIndex st1 = currentMainMessageIndex st
          ∨ currentMainMessageIndex st1 = Z.of_nat (length (messages st))) as Hi1.
  { destruct (bool_decide _); [|injection Hagg as <-; by left].
    apply aggregate_cases in Hagg
      as [->|[(_ & _ & ->)|[(i & l & cur & text & _ & _ & _ & ->)|(_ & ->)]]];
      [by left| |by left|by left].
    right. by destruct (entry_open_main ev st) as (_ & ? & _). }
  destruct (afterAggregate_index ev st1) as [Hi|Hi]; rewrite Hi; tauto.
Qed.

Lemma user_entry_kept (evs : list Message) :
  ∀ (st : App) (u : Message),
    entry st 0 = Some u → currentMainMessageIndex st ≠ 0%Z →
    entry (onParsedAll evs st) 0 = Some u
    ∧ currentMainMessageIndex (onParsedAll evs st) ≠ 0%Z.
Proof.
  induction evs as [|ev evs IH]; intros st u Hu Hi; [done|].
  rewrite onParsedAll_cons. apply IH.
  - eapply transcript_step_other; [apply onParsed_step|done|congruence].
  - apply entry_Some in Hu as (k & l & Hk & Hl & _).
    apply lookup_lt_Some in Hl.
    destruct (onParsed_index_cases ev st) as [->|[->| ->]]; [done|lia|done].
Qed.

(** X8.  Within a run the entry of the user's task stays the first entry
    and stays as [handleSubmit] wrote it: whatever events arrive, none
    is merged into it, since the main-slot index is never 0. *)
Theorem X8_user_entry_stays_first (evs : list Message) (task now : string)
    (st0 : App) :
  entry (onParsedAll evs (handleSubmit task now st0)) 0 = Some (userMessage task now)
  ∧ currentMainMessageIndex (onParsedAll evs (handleSubmit task now st0)) ≠ 0%Z.
Proof.
  apply user_entry_kept; [|done].
  rewrite handleSubmit_state. change 0%Z with (Z.of_nat 0). rewrite entry_nat.
  cbn. by rewrite lookup_app_r, Nat.sub_diag.
Qed.

(** ** The team *)

Lemma agent_evolves_refl (a : Agent) : agent_evolves a a.
Proof. by split. Qed.

Lemma team_evolves_refl (team : list Agent) : Forall2 agent_evolves team team.
Proof. induction team; constructor; [apply agent_evolves_refl|done]. Qed.

Lemma team_evolves_trans (t1 t2 t3 : list Agent) :
  Forall2 agent_evolves t1 t2 → Forall2 agent_evolves t2 t3 →
  Forall2 agent_evolves t1 t3.
Proof.
  intros H12. revert t3. induction H12 as [|a b t1 t2 [Hid Hfl] _ IH]; intros t3 H23.
  - by apply Forall2_nil_inv_l in H23 as ->.
  - apply Forall2_cons_inv_l in H23 as (c & t3' & [Hid' Hfl'] & H23 & ->).
    constructor; [|by apply IH]. split; [congruence|auto].
Qed.

Lemma agent_evolves_assign (a : Agent) (s : string) :
  s = "idle" ∨ s = "active" ∨ s = "completed" →
  agent_evolves a (mkAgent (name a) (avatar a) s (bool_decide (s = "active"))
                           (role a) (layer a)).
Proof. intros Hs. split; [done|]. intros _. by split. Qed.

Lemma mutate_agent_evolves (n s : string) (team : list Agent) :
  s = "idle" ∨ s = "active" ∨ s = "completed" →
  Forall2 agent_evolves team
          (mutate_agent n s (bool_decide (s = "active")) team).
Proof.
  intros Hs. induction team as [|a team IH]; [constructor|].
  cbn. destruct (bool_decide (name a = n)).
  - constructor; [by apply agent_evolves_assign|apply team_evolves_refl].
  - constructor; [apply agent_evolves_refl|done].
Qed.

Lemma assign_all_evolves (s : string) (team : list Agent) :
  s = "idle" ∨ s = "active" ∨ s = "completed" →
  Forall2 agent_evolves team
    ((λ a, mkAgent (name a) (avatar a) s (bool_decide (s = "active"))
                   (role a) (layer a)) <$> team).
Proof.
  intros Hs. induction team as [|a team IH]; [constructor|].
  constructor; [by apply agent_evolves_assign|done].
Qed.

Lemma updateAgentFromMessage_evolves (ev : Message) (st : App) :
  Forall2 agent_evolves (agentTeam st) (agentTeam (updateAgentFromMessage ev st)).
Proof.
  unfold updateAgentFromMessage.
  destruct (find_agent _ _).
  - destruct (is_type ev "status").
    { apply (mutate_agent_evolves _ "active"). tauto. }
    destruct (is_type ev "result" || is_type ev "final").
    { destruct (is_type ev "final");
        apply (mutate_agent_evolves _ "completed"); tauto. }
    destruct (is_type ev "error"); [|apply team_evolves_refl].
    apply (mutate_agent_evolves _ "idle"). tauto.
  - destruct (is_type ev "end"); [|apply team_evolves_refl].
    apply (assign_all_evolves "idle"). tauto.
Qed.

Lemma afterAggregate_evolves (ev : Message) (st1 : App) :
  Forall2 agent_evolves (agentTeam st1) (agentTeam (afterAggregate ev st1)).
Proof.
  unfold afterAggregate. destruct (_ || _); [|apply updateAgentFromMessage_evolves].
  eapply team_evolves_trans; [apply updateAgentFromMessage_evolves|].
  apply (assign_all_evolves "idle"). tauto.
Qed.

Lemma onParsed_evolves (ev : Message) (st : App) :
  Forall2 agent_evolves (agentTeam st) (agentTeam (onParsed ev st)).
Proof.
  unfold onParsed.
  destruct (if bool_decide (node ev = Some "supervisor")
            then aggregate ev st else Some st) as [st1|] eqn:Hagg;
    [|apply team_evolves_refl].
  assert (agentTeam st1 = agentTeam st) as <-.
  { destruct (bool_decide _); [|by injection Hagg as <-].
    by apply aggregate_frame in Hagg as (? & _). }
  apply afterAggregate_evolves.
Qed.

Lemma step_evolves (a : Action) (sys : System) :
  Forall2 agent_evolves (agentTeam (app sys)) (agentTeam (app (step a sys))).
Proof.
  destruct a as [task now|r ev|r msg]; cbn [step].
  - apply (assign_all_evolves "active"). tauto.
  - destruct (bool_decide _); [apply onParsed_evolves|apply team_evolves_refl].
  - destruct (bool_decide _); [|apply team_evolves_refl].
    apply (assign_all_evolves "idle"). tauto.
Qed.

Lemma run_evolves (acts : list Action) :
  ∀ sys : System,
    Forall2 agent_evolves (agentTeam (app sys)) (agentTeam (app (run acts sys))).
Proof.
  induction acts as [|a acts IH]; intros sys; [apply team_evolves_refl|].
  eapply team_evolves_trans; [apply step_evolves|apply IH].
Qed.

(** X9.  The team is fixed: no submission, parsed event or fault adds,
    removes or reorders an agent or changes its name, avatar, role or
    layer, whatever agent names the events carry. *)
Theorem X9_team_is_fixed (acts : list Action) (sys : System) :
  agent_identity <$> agentTeam (app (run acts sys))
  = agent_identity <$> agentTeam (app sys).
Proof.
  pose proof (run_evolves acts sys) as H.
  induction H as [|a b t1 t2 [Hid _] _ IH]; [done|].
  cbn. by rewrite Hid, IH.
Qed.

(** X10.  In every reachable state each agent's [active] flag is true
    exactly when its [status] is active, and its status is idle, active
    or completed. *)
Theorem X10_agent_flags_are_consistent (acts : list Action) :
  Forall flags_consistent (agentTeam (app (run acts boot))).
Proof.
  pose proof (run_evolves acts boot) as H.
  assert (Forall flags_consistent (agentTeam (app boot))) as Hboot.
  { repeat constructor. }
  induction H as [|a b t1 t2 [_ Hfl] _ IH]; [constructor|].
  apply Forall_cons in Hboot as [Ha Ht]. constructor; auto.
Qed.

(** X11.  An event whose agent name is not in the team, and whose kind is
    neither end nor final, changes no agent and leaves the active-agent
    indicator as it is. *)
Theorem X11_unknown_agent_is_ignored (ev : Message) (st : App) :
  find_agent (or_default (agent ev) "系统") (agentTeam st) = None →
  type ev ≠ Some "end" → type ev ≠ Some "final" →
  agentTeam (onParsed ev st) = agentTeam st
  ∧ currentActiveAgent (onParsed ev st) = currentActiveAgent st.
Proof.
  intros Hfind Hend Hfinal. unfold onParsed.
  destruct (if bool_decide (node ev = Some "supervisor")
            then aggregate ev st else Some st) as [st1|] eqn:Hagg; [|done].
  assert (agentTeam st1 = agentTeam st
          ∧ currentActiveAgent st1 = currentActiveAgent st) as [Ht Ha].
  { destruct (bool_decide _); [|by injection Hagg as <-].
    by apply aggregate_frame in Hagg as (? & ? & _). }
  unfold afterAggregate, updateAgentFromMessage, is_type.
  rewrite Ht, Hfind.
  rewrite (bool_decide_eq_false_2 _ Hend), (bool_decide_eq_false_2 _ Hfinal).
  done.
Qed.

Lemma X11_status_of_a_stranger :
  agentTeam (onParsed (event "status" "supervisor" "陌生人" "hello") started_run)
    = agentTeam started_run
  ∧ currentActiveAgent (onParsed (event "status" "supervisor" "陌生人" "hello")
                          started_run)
    = currentActiveAgent started_run.
Proof.
  apply (X11_unknown_agent_is_ignored
           (event "status" "supervisor" "陌生人" "hello") started_run).
  - reflexivity.
  - discriminate.
  - discriminate.
Defined.

(** ** Edge cases of the handler *)

Lemma onParsed_raises (ev : Message) (st : App) (cur : Message) :
  main_slot st cur → message cur = None →
  mergeable ev → node ev = Some "supervisor" →
  onParsed ev st = st.
Proof.
  intros Hs Hnone Hm Hn. unfold onParsed.
  rewrite (bool_decide_eq_true_2 _ Hn).
  rewrite aggregate_mergeable_open by (done || by eapply main_slot_open).
  by rewrite (merge_main_raises _ _ st cur).
Qed.

(** X12.  Once the main slot is open on an entry that has no [message],
    every supervisor-node thinking, status, result, final or error event
    raises at [currentMessage.message.endsWith] and is lost whole: the
    state stays as it is, a final event then neither ends [loading] nor
    closes the slot. *)
Theorem X12_entry_without_text_blocks_the_run (evs : list Message) (st : App)
    (cur : Message) :
  main_slot st cur → message cur = None →
  Forall (λ ev, mergeable ev ∧ node ev = Some "supervisor") evs →
  onParsedAll evs st = st.
Proof.
  intros Hs Hnone Hevs. induction Hevs as [|ev evs [Hm Hn] _ IH]; [done|].
  rewrite onParsedAll_cons. by rewrite (onParsed_raises ev st cur).
Qed.

Lemma X12_status_without_message_then_final :
  onParsedAll
    [event "thinking" "supervisor" "A" "x"; event "final" "supervisor" "A" "done"]
    (onParsed (mkMessage (Some "status") (Some "supervisor") (Some "主管")
                         None None None None None) started_run)
  = onParsed (mkMessage (Some "status") (Some "supervisor") (Some "主管")
                        None None None None None) started_run.
Proof.
  apply (X12_entry_without_text_blocks_the_run _ _
           (mkMessage (Some "status") (Some "supervisor") (Some "主管")
                      None None None None None)).
  - reflexivity.
  - reflexivity.
  - repeat constructor; (by left) || (by do 3 right; left).
Defined.

(** X13.  A parsed event never sets the error text, and it changes
    [loading] only if its kind is end or final; an end or final event
    whose handling does not raise ends [loading] and closes the main
    slot, whatever its node. *)
Theorem X13_only_end_and_final_stop_loading (ev : Message) (st : App) :
  error (onParsed ev st) = error st
  ∧ (type ev ≠ Some "end" → type ev ≠ Some "final" →
     loading (onParsed ev st) = loading st)
  ∧ (type ev = Some "end" ∨ type ev = Some "final" →
     (node ev = Some "supervisor" → is_Some (aggregate ev st)) →
     loading (onParsed ev st) = false
     ∧ currentMainMessageIndex (onParsed ev st) = (-1)%Z).
Proof.
  unfold onParsed.
  destruct (if bool_decide (node ev = Some "supervisor")
            then aggregate ev st else Some st) as [st1|] eqn:Hagg.
  - assert (loading st1 = loading st ∧ error st1 = error st) as [Hl He].
    { destruct (bool_decide _); [|by injection Hagg as <-].
      by apply aggregate_frame in Hagg as (_ & _ & ? & ?). }
    destruct (updateAgentFromMessage_frame ev st1) as (_ & _ & _ & Hl2 & He2).
    unfold afterAggregate, is_type. split; [|split].
    + destruct (_ || _); cbn; congruence.
    + intros Hend Hfinal.
      rewrite (bool_decide_eq_false_2 _ Hend), (bool_decide_eq_false_2 _ Hfinal).
      cbn. congruence.
    + intros [Hty|Hty] _; rewrite Hty.
      * by rewrite bool_decide_eq_true_2.
      * rewrite orb_comm. by rewrite bool_decide_eq_true_2.
  - split; [done|]. split; [done|]. intros _ Hok.
    destruct (bool_decide (node ev = Some "supervisor")) eqn:Hn; [|done].
    apply bool_decide_eq_true in Hn. destruct (Hok Hn) as [st1 Hst1]. congruence.
Qed.

(** X14.  The status and error rows of the tracker, for an event that
    names a known agent and whose handling does not raise: a status
    event makes the agent active and the active agent; an error event
    makes it idle and clears the active-agent indicator. *)
Theorem X14_status_activates_error_idles (ev : Message) (st : App) (a : Agent) :
  find_agent (or_default (agent ev) "系统") (agentTeam st) = Some a →
  (node ev = Some "supervisor" → is_Some (aggregate ev st)) →
  (type ev = Some "status" →
     find_agent (or_default (agent ev) "系统") (agentTeam (onParsed ev st))
       = Some (mkAgent (name a) (avatar a) "active" true (role a) (layer a))
     ∧ currentActiveAgent (onParsed ev st) = or_default (agent ev) "系统")
  ∧ (type ev = Some "error" →
     find_agent (or_default (agent ev) "系统") (agentTeam (onParsed ev st))
       = Some (mkAgent (name a) (avatar a) "idle" false (role a) (layer a))
     ∧ currentActiveAgent (onParsed ev st) = "").
Proof.
  intros Hfind Hok.
  destruct (onParsed_agents ev st Hok) as (-> & ->).
  split; intros Hty.
  - unfold afterAggregate, updateAgentFromMessage. rewrite Hfind. by_type.
    unfold set_currentActiveAgent, set_agentTeam. cbn [agentTeam currentActiveAgent].
    by rewrite (find_agent_mutate _ _ _ _ a).
  - unfold afterAggregate, updateAgentFromMessage. rewrite Hfind. by_type.
    unfold set_currentActiveAgent, set_agentTeam. cbn [agentTeam currentActiveAgent].
    by rewrite (find_agent_mutate _ _ _ _ a).
Qed.

Lemma X14_status_then_error_of_the_searcher :
  (find_agent "搜索器"
     (agentTeam (onParsed (event "status" "searcher" "搜索器" "s") initial))
   = Some (mkAgent "搜索器" "🔍" "active" true "searcher" 3)
   ∧ currentActiveAgent (onParsed (event "status" "searcher" "搜索器" "s") initial)
     = "搜索器")
  ∧ (find_agent "搜索器"
       (agentTeam (onParsed (event "error" "searcher" "搜索器" "e")
                     (onParsed (event "status" "searcher" "搜索器" "s") initial)))
     = Some (mkAgent "搜索器" "🔍" "idle" false "searcher" 3)
     ∧ currentActiveAgent
         (onParsed (event "error" "searcher" "搜索器" "e")
            (onParsed (event "status" "searcher" "搜索器" "s") initial))
       = "").
Proof.
  split.
  - destruct (X14_status_activates_error_idles
                (event "status" "searcher" "搜索器" "s") initial
                (mkAgent "搜索器" "🔍" "idle" false "searcher" 3) eq_refl)
      as [Hstatus _].
    + intros Hn. discriminate Hn.
    + apply (Hstatus eq_refl).
  - destruct (X14_status_activates_error_idles
                (event "error" "searcher" "搜索器" "e")
                (onParsed (event "status" "searcher" "搜索器" "s") initial)
                (mkAgent "搜索器" "🔍" "active" true "searcher" 3) eq_refl)
      as [_ Herror].
    + intros Hn. discriminate Hn.
    + apply (Herror eq_refl).
Defined.

(** X15.  A supervisor-node connection or end event becomes an entry of
    its own at the end of the transcript and is merged into nothing:
    every entry that was there is unchanged, the main slot's too.  A
    connection event leaves the main-slot index as it is; an end event
    closes the slot. *)
Theorem X15_connection_and_end_are_appended (ev : Message) (st : App) :
  type ev = Some "connection" ∨ type ev = Some "end" →
  node ev = Some "supervisor" →
  messages (onParsed ev st) = messages st ++ [length (heap st)]
  ∧ heap (onParsed ev st) = heap st ++ [ev]
  ∧ (∀ (j : Z) (e : Message),
       entry st j = Some e → entry (onParsed ev st) j = Some e)
  ∧ (type ev = Some "connection" →
     currentMainMessageIndex (onParsed ev st) = currentMainMessageIndex st)
  ∧ (type ev = Some "end" →
     currentMainMessageIndex (onParsed ev st) = (-1)%Z).
Proof.
  intros Hty Hn.
  assert (aggregate ev st = Some (push ev st)) as Hagg.
  { unfold aggregate. destruct Hty as [H|H]; by by_type. }
  rewrite (onParsed_supervisor ev st _ Hn Hagg).
  destruct (afterAggregate_frame ev (push ev st)) as (Hh & Hm & _).
  split; [by rewrite Hm|]. split; [by rewrite Hh|]. split; [|split].
  - intros j e He. rewrite entry_afterAggregate. by apply entry_push_old.
  - intros H. unfold afterAggregate.
    rewrite updateAgentFromMessage_inert by (by by_type). by by_type.
  - intros H. unfold afterAggregate. by by_type.
Qed.

Lemma X15_connection_after_thinking :
  let st := onParsed (event "thinking" "supervisor" "A" "x") started_run in
  let ev := event "connection" "supervisor" "系统" "connected" in
  messages (onParsed ev st) = messages st ++ [length (heap st)]
  ∧ heap (onParsed ev st) = heap st ++ [ev]
  ∧ (∀ (j : Z) (e : Message),
       entry st j = Some e → entry (onParsed ev st) j = Some e)
  ∧ (type ev = Some "connection" →
     currentMainMessageIndex (onParsed ev st) = currentMainMessageIndex st)
  ∧ (type ev = Some "end" →
     currentMainMessageIndex (onParsed ev st) = (-1)%Z).
Proof.
  cbv zeta.
  apply (X15_connection_and_end_are_appended
           (event "connection" "supervisor" "系统" "connected")
           (onParsed (event "thinking" "supervisor" "A" "x") started_run)).
  - left. reflexivity.
  - reflexivity.
Defined.

(** ** The input area *)

Module InputAreaFacts.
Import InputArea.

Lemma trimStart_split (s : list N) :
  ∃ ws : list N,
    s = ws ++ trimStart s ∧ Forall (λ u, is_space u = true) ws.
Proof.
  induction s as [|u s (ws & Hs & Hws)]; [by exists []|].
  cbn [trimStart]. destruct (is_space u) eqn:Hu.
  - exists (u :: ws). split; [cbn; by rewrite <- Hs|by constructor].
  - by exists [].
Qed.

Lemma trimStart_head (s : list N) (u : N) :
  head (trimStart s) = Some u → is_space u = false.
Proof.
  induction s as [|v s IH]; [done|].
  cbn [trimStart]. destruct (is_space v) eqn:Hv; [done|].
  cbn. by intros [= <-].
Qed.

Lemma trimEnd_split (s : list N) :
  ∃ ws : list N,
    s = trimEnd s ++ ws ∧ Forall (λ u, is_space u = true) ws.
Proof.
  destruct (trimStart_split (reverse s)) as (ws & Hs & Hws).
  exists (reverse ws). split.
  - unfold trimEnd. rewrite <- reverse_app, <- Hs. by rewrite reverse_involutive.
  - by apply Forall_reverse.
Qed.

Lemma trimEnd_last (s : list N) (u : N) :
  last (trimEnd s) = Some u → is_space u = false.
Proof.
  unfold trimEnd. rewrite last_reverse. apply trimStart_head.
Qed.

Lemma trim_length (s : list N) : length (trim s) ≤ length s.
Proof.
  unfold trim.
  destruct (trimStart_split s) as (ws1 & Hs1 & _).
  destruct (trimEnd_split (trimStart s)) as (ws2 & Hs2 & _).
  apply (f_equal length) in Hs1, Hs2. rewrite length_app in Hs1, Hs2. lia.
Qed.

Lemma trim_head (s : list N) (u : N) :
  head (trim s) = Some u → is_space u = false.
Proof.
  unfold trim. intros Hu.
  destruct (trimEnd_split (trimStart s)) as (ws & Hs & _).
  apply (trimStart_head s). rewrite Hs.
  destruct (trimEnd (trimStart s)); [done|]. done.
Qed.

Lemma handleSubmit_cases (inputText : list N) :
  (trim inputText = [] ∧ handleSubmit inputText = [Alert "请输入任务内容"])
  ∨ (trim inputText ≠ [] ∧ 5000 < length (trim inputText)
     ∧ handleSubmit inputText = [Alert "任务内容过长（限制 5000 字符）"])
  ∨ (trim inputText ≠ [] ∧ length (trim inputText) ≤ 5000
     ∧ handleSubmit inputText = [EmitSubmit (trim inputText)]).
Proof.
  unfold handleSubmit. cbv zeta.
  destruct (decide (trim inputText = [])) as [He|He].
  - left. by rewrite (bool_decide_eq_true_2 _ He).
  - right. rewrite (bool_decide_eq_false_2 _ He).
    destruct (decide (5000 < length (trim inputText))) as [Hl|Hl].
    + left. by rewrite (bool_decide_eq_true_2 _ Hl).
    + right. rewrite (bool_decide_eq_false_2 _ Hl). split; [done|]. split; [lia|done].
Qed.

(** X16.  What [handleSubmit] emits as the task is the trimmed input and
    nothing else: it is not empty, has at most 5000 code units, and
    neither begins nor ends with white space. *)
Theorem X16_submitted_task_is_trimmed (inputText task : list N) :
  EmitSubmit task ∈ handleSubmit inputText →
  task = trim inputText ∧ task ≠ [] ∧ length task ≤ 5000
  ∧ (∀ u : N, head task = Some u → is_space u = false)
  ∧ (∀ u : N, last task = Some u → is_space u = false).
Proof.
  intros Hin.
  destruct (handleSubmit_cases inputText)
    as [(_ & Hh)|[(_ & _ & Hh)|(Hne & Hlen & Hh)]];
    rewrite Hh in Hin; apply list_elem_of_singleton in Hin; try done.
  injection Hin as ->. split; [done|]. split; [done|]. split; [done|].
  split; [apply trim_head|apply trimEnd_last].
Qed.

Lemma X16_padded_task :
  [104; 105]%N = trim [32; 10; 104; 105; 32; 12288]%N
  ∧ [104; 105]%N ≠ [] ∧ length [104; 105]%N ≤ 5000
  ∧ (∀ u : N, head [104; 105]%N = Some u → is_space u = false)
  ∧ (∀ u : N, last [104; 105]%N = Some u → is_space u = false).
Proof.
  apply (X16_submitted_task_is_trimmed [32; 10; 104; 105; 32; 12288]%N).
  vm_compute. apply list_elem_of_here.
Defined.

Lemma watchInputText_length (newValue : list N) :
  length (watchInputText newValue) ≤ 5000.
Proof.
  unfold watchInputText. case_bool_decide; [|lia].
  rewrite length_take. lia.
Qed.

(** X17.  The watcher keeps the input within 5000 code units, by
    cutting a longer value down to its first 5000 and leaving any other
    value alone, and an input within 5000 code units never gets the
    alert for a task that is too long: [handleSubmit] then either asks
    for a task, when the input is blank, or submits the trimmed input. *)
Theorem X17_length_check_is_never_reached (newValue : list N) :
  length (watchInputText newValue) ≤ 5000
  ∧ watchInputText newValue = take 5000 newValue
  ∧ watchInputText (watchInputText newValue) = watchInputText newValue
  ∧ (handleSubmit (watchInputText newValue) = [Alert "请输入任务内容"]
     ∨ handleSubmit (watchInputText newValue)
       = [EmitSubmit (trim (watchInputText newValue))]).
Proof.
  pose proof (watchInputText_length newValue) as Hlen.
  split; [done|]. split; [|split].
  - unfold watchInputText. case_bool_decide; [done|].
    by rewrite take_ge by lia.
  - unfold watchInputText at 1. by rewrite bool_decide_eq_false_2 by lia.
  - pose proof (trim_length (watchInputText newValue)) as Htrim.
    destruct (handleSubmit_cases (watchInputText newValue))
      as [(_ & Hh)|[(_ & Hlong & _)|(_ & _ & Hh)]]; [by left|lia|by right].
Qed.

(** X18.  The send button and the handler agree: with an input within
    5000 code units, a click on the enabled button submits the trimmed
    input, and a blank input disables the button, as the handler would
    only ask for a task.  The shortcut, Ctrl or Cmd with Enter, then
    does what the click does, after [preventDefault]; any other key does
    nothing. *)
Theorem X18_enabled_button_submits (disabled : bool) (inputText : list N) :
  length inputText ≤ 5000 →
  (send_disabled disabled inputText = false →
   handleSubmit inputText = [EmitSubmit (trim inputText)]
   ∧ ∀ ctrlKey metaKey : bool,
       ctrlKey || metaKey = true →
       handleKeydown ctrlKey metaKey "Enter" inputText
       = [PreventDefault; EmitSubmit (trim inputText)])
  ∧ (trim inputText = [] →
     send_disabled disabled inputText = true
     ∧ handleSubmit inputText = [Alert "请输入任务内容"])
  ∧ (∀ (ctrlKey metaKey : bool) (key : string),
       key ≠ "Enter" → handleKeydown ctrlKey metaKey key inputText = []).
Proof.
  intros Hlen. pose proof (trim_length inputText) as Htrim.
  split; [|split].
  - unfold send_disabled. intros Hd. apply orb_false_iff in Hd as [_ Hd].
    apply bool_decide_eq_false in Hd.
    assert (handleSubmit inputText = [EmitSubmit (trim inputText)]) as Hh.
    { destruct (handleSubmit_cases inputText)
        as [(He & _)|[(_ & Hlong & _)|(_ & _ & Hh)]]; [done|lia|done]. }
    split; [done|]. intros ctrlKey metaKey Hmod. unfold handleKeydown.
    by rewrite Hmod, Hh.
  - intros He. unfold send_disabled.
    rewrite (bool_decide_eq_true_2 _ He), orb_true_r. split; [done|].
    destruct (handleSubmit_cases inputText)
      as [(_ & Hh)|[(Hne & _)|(Hne & _)]]; done.
  - intros ctrlKey metaKey key Hkey. unfold handleKeydown.
    by rewrite (bool_decide_eq_false_2 _ Hkey), andb_false_r.
Qed.

Lemma X18_click_with_a_task :
  (send_disabled false [32; 104; 105]%N = false →
   handleSubmit [32; 104; 105]%N = [EmitSubmit (trim [32; 104; 105]%N)]
   ∧ ∀ ctrlKey metaKey : bool,
       ctrlKey || metaKey = true →
       handleKeydown ctrlKey metaKey "Enter" [32; 104; 105]%N
       = [PreventDefault; EmitSubmit (trim [32; 104; 105]%N)])
  ∧ (trim [32; 104; 105]%N = [] →
     send_disabled false [32; 104; 105]%N = true
     ∧ handleSubmit [32; 104; 105]%N = [Alert "请输入任务内容"])
  ∧ (∀ (ctrlKey metaKey : bool) (key : string),
       key ≠ "Enter" → handleKeydown ctrlKey metaKey key [32; 104; 105]%N = []).
Proof.
  apply (X18_enabled_button_submits false [32; 104; 105]%N).
  cbn. lia.
Defined.

End InputAreaFacts.

(** ** Closed entries *)

Lemma entries_frozen (n : nat) (evs : list Message) :
  ∀ st : App,
    currentMainMessageIndex st = (-1)%Z
    ∨ (Z.of_nat n ≤ currentMainMessageIndex st)%Z →
    n ≤ length (messages st) →
    ∀ (j : nat) (e : Message),
      j < n → entry st (Z.of_nat j) = Some e →
      entry (onParsedAll evs st) (Z.of_nat j) = Some e.
Proof.
  induction evs as [|ev evs IH]; intros st Hi Hn j e Hj He; [done|].
  rewrite onParsedAll_cons. apply IH; [| |done|].
  - destruct (onParsed_index_cases ev st) as [->|[->| ->]]; [done|right; lia|by left].
  - pose proof (transcript_step_length st _ (onParsed_step ev st)). lia.
  - eapply transcript_step_other; [apply onParsed_step|done|]. lia.
Qed.

(** X19.  Once the main slot is closed, the entries that the transcript
    holds are final: no later event of the stream changes or removes
    any of them.  A transport fault closes the slot, and so does a
    supervisor-node end event, which itself changes no entry. *)
Theorem X19_closed_entries_are_final (evs : list Message) (st : App) (j : Z)
    (e : Message) :
  entry st j = Some e →
  (currentMainMessageIndex st = (-1)%Z → entry (onParsedAll evs st) j = Some e)
  ∧ (∀ msg : string, entry (onParsedAll evs (onFault msg st)) j = Some e)
  ∧ (∀ ev : Message,
       type ev = Some "end" → node ev = Some "supervisor" →
       entry (onParsedAll evs (onParsed ev st)) j = Some e).
Proof.
  intros He. pose proof He as He'.
  apply entry_Some in He' as (k & l & -> & Hk & _).
  pose proof (lookup_lt_Some _ _ _ Hk) as Hlt.
  split; [|split].
  - intros Hc. apply (entries_frozen (length (messages st))); auto.
  - intros msg. apply (entries_frozen (length (messages st))); auto.
  - intros ev Hty Hn.
    destruct (onParsed_end ev st Hty) as (_ & Hclose & _).
    pose proof (transcript_step_length st _ (onParsed_step ev st)).
    apply (entries_frozen (length (messages st))); [auto|lia|done|].
    rewrite (onParsed_supervisor ev st (push ev st)); [|done|].
    + rewrite entry_afterAggregate. by apply entry_push_old.
    + unfold aggregate. by by_type.
Qed.

Lemma X19_after_the_final_answer :
  let st := onParsedAll [event "thinking" "supervisor" "A" "x";
                         event "final" "supervisor" "A" "done"] started_run in
  let evs := [event "thinking" "supervisor" "A" "late";
              event "status" "supervisor" "主管" "later"] in
  let e := event "thinking" "supervisor" "A" ("x" +:+ nl +:+ nl +:+ "done") in
  (currentMainMessageIndex st = (-1)%Z → entry (onParsedAll evs st) 1 = Some e)
  ∧ (∀ msg : string, entry (onParsedAll evs (onFault msg st)) 1 = Some e)
  ∧ (∀ ev : Message,
       type ev = Some "end" → node ev = Some "supervisor" →
       entry (onParsedAll evs (onParsed ev st)) 1 = Some e).
Proof.
  cbv zeta.
  apply (X19_closed_entries_are_final
           [event "thinking" "supervisor" "A" "late";
            event "status" "supervisor" "主管" "later"]
           (onParsedAll [event "thinking" "supervisor" "A" "x";
                         event "final" "supervisor" "A" "done"] started_run)
           1 (event "thinking" "supervisor" "A" ("x" +:+ nl +:+ nl +:+ "done"))).
  reflexivity.
Defined.
